(** * depender: the graph renderer (depender/graph/render.py)

    A shallow embedding of [GraphRenderer]: the colouring of the dependency
    graph, the construction of the dependency matrix and the data collected
    for the structure graph.  Plotting calls (bokeh, networkx, jinja2) are
    left out; what the three [render_*] methods compute before they hand the
    data to the plotting backend is kept, statement by statement. *)

From Stdlib Require Import ZArith QArith Qcanon Qround Lqa Lia.
From stdpp Require Import base list strings gmap.

Local Open Scope string_scope.
Local Open Scope list_scope.

(** ** Exceptions and fallible statements *)

Inductive exception : Type :=
  | AttributeError   (* attribute access on [None] *)
  | TypeError        (* a list subscripted by [None] *)
  | IndexError       (* a list subscript out of range *)
  | ZeroDivisionError.

Inductive result (A : Type) : Type :=
  | Ok (a : A)
  | Raise (e : exception).
Arguments Ok {A} a.
Arguments Raise {A} e.

Global Instance result_ret : MRet result := λ A a, Ok a.
Global Instance result_bind : MBind result := λ A B k c,
  match c with
  | Ok a => k a
  | Raise e => Raise e
  end.

(** A [for] loop whose body may raise: the state is threaded through the
    items from left to right and the first exception ends the loop. *)
Fixpoint for_each {S A} (body : S → A → result S) (items : list A) (s : S)
  : result S :=
  match items with
  | [] => Ok s
  | a :: items => s' ← body s a; for_each body items s'
  end.

(** ** Python containers *)

(** A [dict] with string keys, in insertion order. *)
Definition dict (V : Type) : Type := list (string * V).

Definition keys {V} (d : dict V) : list string := d.*1.
Definition values {V} (d : dict V) : list V := d.*2.

Fixpoint dict_get {V} (d : dict V) (k : string) : option V :=
  match d with
  | [] => None
  | (k', v) :: d => if decide (k' = k) then Some v else dict_get d k
  end.

(** The value stored under [k] is replaced by [f] of it (an attribute of the
    object stored there is assigned). *)
Fixpoint dict_alter {V} (f : V → V) (k : string) (d : dict V) : dict V :=
  match d with
  | [] => []
  | (k', v) :: d =>
      if decide (k' = k) then (k', f v) :: d else (k', v) :: dict_alter f k d
  end.

(** [enumerate(items)], counting from [start]. *)
Fixpoint enumerate_from {A} (start : Z) (items : list A) : list (Z * A) :=
  match items with
  | [] => []
  | a :: items => (start, a) :: enumerate_from (start + 1) items
  end.
Definition enumerate {A} (items : list A) : list (Z * A) :=
  enumerate_from 0 items.

(** [l[i]] for a Python list: a negative subscript counts from the end, a
    subscript that is [None] is a [TypeError], one out of range an
    [IndexError].  The position and the element are returned. *)
Definition subscript {A} (l : list A) (i : option Z) : result (nat * A) :=
  match i with
  | None => Raise TypeError
  | Some i =>
      let n := Z.of_nat (length l) in
      let p := if (i <? 0)%Z then (i + n)%Z else i in
      if (p <? 0)%Z then Raise IndexError
      else match l !! Z.to_nat p with
           | Some a => Ok (Z.to_nat p, a)
           | None => Raise IndexError
           end
  end.

(** ** The graph *)

Module Node.
(** Modelled from the spec: the class [Node] of depender/graph/graph.py is
    not in the sources at hand.  Its fields are those of the data model: a
    name, a type tag compared as a string by the renderer, a label, the
    geometry, unset at first, and the lazily assigned index. *)
Record t : Type := mk {
  name : string;
  type : string;
  label : string;
  x : option Qc;
  y : option Qc;
  width : option Qc;
  height : option Qc;
  index : option Z
}.

Definition set_index (i : Z) (n : t) : t :=
  mk (name n) (type n) (label n) (x n) (y n) (width n) (height n) (Some i).
End Node.

(** Modelled from the spec: the class [Graph] of depender/graph/graph.py is
    not in the sources at hand.  [nodes] maps a name to its node and [edges]
    maps a source name to the mapping from destination names to integer
    multiplicities; both keep insertion order. *)
Record Graph : Type := mkGraph {
  nodes : dict Node.t;
  edges : dict (dict Z)
}.

(** Modelled from the spec: the queries of [Graph] the renderer calls. *)
Definition get_all_node_names (g : Graph) : list string := keys (nodes g).
Definition node_count (g : Graph) : nat := length (nodes g).
Definition get_node (g : Graph) (name : string) : option Node.t :=
  dict_get (nodes g) name.
Definition nodes_iter (g : Graph) : list Node.t := values (nodes g).
Definition edges_iter (g : Graph) : list (string * dict Z) := edges g.

Definition sum_Z (l : list Z) : Z := foldr Z.add 0%Z l.

(** Modelled from the spec: the in-degree is the sum of the multiplicities
    of the edges that end at the node, the out-degree that of the edges that
    start at it. *)
Definition in_degree (g : Graph) (name : string) : Z :=
  sum_Z (flat_map (λ '(_, sinks),
     flat_map (λ '(sink, m), if decide (sink = name) then [m] else []) sinks)
     (edges g)).
Definition out_degree (g : Graph) (name : string) : Z :=
  sum_Z (flat_map (λ '(source, sinks),
     if decide (source = name) then values sinks else []) (edges g)).

(** [graph.get_node(name).index = i]: the node object held by the graph is
    mutated; on [None] the assignment raises. *)
Definition set_node_index (g : Graph) (name : string) (i : Z) : result Graph :=
  match get_node g name with
  | None => Raise AttributeError
  | Some _ => Ok (mkGraph (dict_alter (Node.set_index i) name (nodes g)) (edges g))
  end.

(** [graph.get_node(name).index] *)
Definition node_index (g : Graph) (name : string) : result (option Z) :=
  match get_node g name with
  | None => Raise AttributeError
  | Some n => Ok (Node.index n)
  end.

(** ** The renderer *)

(** The colours kept by [GraphRenderer.__init__].  The class annotates them
    as strings; the colouring of the dependency graph only hands them to
    [linear_gradient], so that the record is generic in the colour type. *)
Record GraphRenderer (Color : Type) : Type := mkRenderer {
  in_color : Color;
  out_color : Color;
  dis_color : Color;
  root_dir_color : Color;
  dir_color : Color;
  file_color : Color
}.
Arguments mkRenderer {Color}.
Arguments in_color {Color}.
Arguments out_color {Color}.
Arguments dis_color {Color}.
Arguments root_dir_color {Color}.
Arguments dir_color {Color}.
Arguments file_color {Color}.

(** *** render_dependency_graph *)

(** The two attribute dictionaries set on the networkx graph:
    [node_attrs["color"]] and [node_attrs["name"]]. *)
Record NodeAttrs (Color : Type) : Type := mkNodeAttrs {
  node_color : gmap string Color;
  node_name : gmap string string
}.
Arguments mkNodeAttrs {Color}.
Arguments node_color {Color}.
Arguments node_name {Color}.

Section dependency_graph.
Context {Color : Type}.
(** depender/utilities/color.py is not in the sources at hand: the
    gradient is a parameter of the method. *)
Variable linear_gradient : Color → Color → Z → Z → result Color.

(** Lines 76-83, the body of the loop. *)
Definition color_node (self : GraphRenderer Color) (graph : Graph)
    (node_attrs : NodeAttrs Color) (node : string) : result (NodeAttrs Color) :=
  let in_degree := in_degree graph node in
  let out_degree := out_degree graph node in
  color ← (if decide (in_degree = 0%Z ∧ out_degree = 0%Z)
           then Ok (dis_color self)
           else linear_gradient (out_color self) (in_color self)
                                in_degree out_degree);
  Ok (mkNodeAttrs (<[node := color]> (node_color node_attrs))
                  (<[node := node]> (node_name node_attrs))).

(** Lines 74-83. *)
Definition render_dependency_graph (self : GraphRenderer Color) (graph : Graph)
  : result (NodeAttrs Color) :=
  for_each (color_node self graph) (get_all_node_names graph)
           (mkNodeAttrs ∅ ∅).
End dependency_graph.

(** An integer as a rational. *)
Definition Z2Qc (z : Z) : Qc := Q2Qc (inject_Z z).

(** Modelled from the spec: [linear_gradient] of depender/utilities/color.py
    is not in the sources at hand.  A colour is its three channels, each an
    integer of the range 0..255 that a colour [#rrggbb] holds.  The weight
    is [in_degree / (in_degree + out_degree)], every channel is mixed as
    [out_channel + (in_channel - out_channel) * weight], and the result is
    rounded and clamped to the range of a channel.  The specification does
    not name the rounding: it is a parameter.  The division raises on a
    zero sum. *)
Record rgb : Type := mkRgb { red : Z; green : Z; blue : Z }.

Definition interpolate (out_channel in_channel in_degree out_degree : Z) : Q :=
  (inject_Z out_channel
   + (inject_Z in_channel - inject_Z out_channel)
     * (inject_Z in_degree / inject_Z (in_degree + out_degree)))%Q.

Definition clamp (channel : Z) : Z := Z.max 0 (Z.min 255 channel).

Section gradient.
Variable round : Q → Z.

Definition mix_channel (out_channel in_channel in_degree out_degree : Z) : Z :=
  clamp (round (interpolate out_channel in_channel in_degree out_degree)).

Definition linear_gradient (start finish : rgb) (in_degree out_degree : Z)
  : result rgb :=
  if decide ((in_degree + out_degree)%Z = 0%Z) then Raise ZeroDivisionError
  else
    Ok (mkRgb (mix_channel (red start) (red finish) in_degree out_degree)
              (mix_channel (green start) (green finish) in_degree out_degree)
              (mix_channel (blue start) (blue finish) in_degree out_degree)).
End gradient.

(** *** render_dependency_matrix *)

(** What [render_dependency_matrix] hands to the plot: the two axis ranges
    and the columns of the data source. *)
Module MatrixPlot.
Record t : Type := mk {
  x_range : list string;
  y_range : list string;
  importing_name : list string;
  imported_name : list string;
  color : list string;
  matrix : list Z
}.
End MatrixPlot.

(** Lines 168-169. *)
Definition assign_indices (g : Graph) (node_names : list string) : result Graph :=
  for_each (λ g '(index, node), set_node_index g node index)
           (enumerate node_names) g.

(** Line 175. *)
Definition empty_matrix (node_count : nat) : list (list Z) :=
  replicate node_count (replicate node_count 0%Z).

(** Lines 177-180: the state is the pair of the two name columns. *)
Definition name_columns (node_names : list string) : list string * list string :=
  fold_left (λ data source_node,
    fold_left (λ '(importing, imported) sink_node,
                 (importing ++ [source_node], imported ++ [sink_node]))
              node_names data)
    node_names ([], []).

(** Line 183: [matrix[i][j] += 1] with [i] and [j] the indices of the two
    nodes, evaluated in Python's order. *)
Definition increment (g : Graph) (matrix : list (list Z))
    (source_node sink_node : string) : result (list (list Z)) :=
  i ← node_index g source_node;
  '(i, row) ← subscript matrix i;
  j ← node_index g sink_node;
  '(j, element) ← subscript row j;
  Ok (<[i := <[j := (element + 1)%Z]> row]> matrix).

(** Lines 181-183: iterating over [sink_nodes] visits its keys. *)
Definition accumulate (g : Graph) (matrix : list (list Z))
  : result (list (list Z)) :=
  for_each (λ matrix '(source_node, sink_nodes),
      for_each (λ matrix sink_node, increment g matrix source_node sink_node)
               (keys sink_nodes) matrix)
    (edges_iter g) matrix.

(** Lines 186-191, the body of the loop: an element other than 0, 1 and -1
    appends nothing. *)
Definition append_color (self : GraphRenderer string) (colors : list string)
    (element : Z) : list string :=
  if decide (element = 0%Z) then colors ++ ["#ffffff"]
  else if decide (element = 1%Z) then colors ++ [out_color self]
  else if decide (element = (-1)%Z) then colors ++ [in_color self]
  else colors.

(** Lines 185-191. *)
Definition assign_colors (self : GraphRenderer string) (elements : list Z)
  : list string :=
  fold_left (append_color self) elements [].

(** The method returns nothing; the model returns the graph as the call
    leaves it (the nodes carry their index) and the data of the plot. *)
Definition render_dependency_matrix (self : GraphRenderer string) (graph : Graph)
  : result (Graph * MatrixPlot.t) :=
  let node_names := reverse (get_all_node_names graph) in
  let node_count := node_count graph in
  graph ← assign_indices graph node_names;
  let matrix := empty_matrix node_count in
  let '(importing, imported) := name_columns node_names in
  matrix ← accumulate graph matrix;
  let colors := assign_colors self (mjoin matrix) in
  Ok (graph, MatrixPlot.mk node_names node_names importing imported colors
               (mjoin matrix)).

(** *** render_structure_graph *)

Module StructurePlot.
(** The columns of [node_data] and of [edge_data]. *)
Record t : Type := mk {
  center_x : list (option Qc);
  center_y : list (option Qc);
  width : list (option Qc);
  height : list (option Qc);
  name : list string;
  type : list string;
  label : list string;
  font_size : list Qc;
  color : list string;
  xs : list (option Qc * option Qc);
  ys : list (option Qc * option Qc)
}.

Definition empty : t := mk [] [] [] [] [] [] [] [] [] [] [].
End StructurePlot.

Section structure_graph.
(** depender/graph/layout.py is not in the sources at hand: the layout is
    a parameter of the method.  It returns the graph as it leaves it. *)
Variable layout_structure_graph : Graph → Qc → Qc → result Graph.

(** Lines 219-221. *)
Definition structure_color (self : GraphRenderer string) (node : Node.t)
  : string :=
  if decide (Node.type node = "root") then root_dir_color self
  else if decide (Node.type node = "directory") then dir_color self
  else file_color self.

(** Lines 211-222, the body of the loop over the nodes. *)
Definition collect_node (self : GraphRenderer string) (base_font_size : Qc)
    (d : StructurePlot.t) (node : Node.t) : StructurePlot.t :=
  let color := structure_color self node in
  StructurePlot.mk
    (StructurePlot.center_x d ++ [Node.x node])
    (StructurePlot.center_y d ++ [Node.y node])
    (StructurePlot.width d ++ [Node.width node])
    (StructurePlot.height d ++ [Node.height node])
    (StructurePlot.name d ++ [Node.label node])
    (StructurePlot.type d ++ [Node.type node])
    (StructurePlot.label d ++ [Node.label node])
    (StructurePlot.font_size d ++ [base_font_size])
    (StructurePlot.color d ++ [color])
    (StructurePlot.xs d) (StructurePlot.ys d).

(** Lines 228-234, the body of the loop over the edges: a node object is
    true, [None] is false. *)
Definition collect_edge (graph : Graph) (edge_begin : string)
    (d : StructurePlot.t) (edge_end : string) : StructurePlot.t :=
  let begin_node := get_node graph edge_begin in
  let end_node := get_node graph edge_end in
  match begin_node, end_node with
  | Some begin_node, Some end_node =>
      StructurePlot.mk
        (StructurePlot.center_x d) (StructurePlot.center_y d)
        (StructurePlot.width d) (StructurePlot.height d)
        (StructurePlot.name d) (StructurePlot.type d)
        (StructurePlot.label d) (StructurePlot.font_size d)
        (StructurePlot.color d)
        (StructurePlot.xs d ++ [(Node.x begin_node, Node.x end_node)])
        (StructurePlot.ys d ++ [(Node.y begin_node, Node.y end_node)])
  | _, _ => d
  end.

(** Lines 205-235. *)
Definition render_structure_graph (self : GraphRenderer string) (graph : Graph)
    (base_width base_height base_font_size : Qc) : result StructurePlot.t :=
  let step_x := (base_width * base_font_size / Z2Qc 60)%Qc in
  let step_y := (base_height * base_font_size * Z2Qc 4 / Z2Qc 10)%Qc in
  graph ← layout_structure_graph graph step_x step_y;
  let node_data :=
    fold_left (collect_node self base_font_size) (nodes_iter graph)
              StructurePlot.empty in
  let edge_data :=
    fold_left (λ d '(edge_begin, edge_ends),
                 fold_left (collect_edge graph edge_begin) (keys edge_ends) d)
              (edges_iter graph) node_data in
  Ok edge_data.
End structure_graph.

(** ** Well-formed graphs *)

(** What the dictionaries of a [Graph] guarantee: a key occurs once, and,
    by [add_edge], both ends of an edge are nodes of the graph. *)
Definition well_formed (g : Graph) : Prop :=
  NoDup (keys (nodes g))
  ∧ NoDup (keys (edges g))
  ∧ Forall (λ e : string * dict Z, NoDup (keys e.2)) (edges g)
  ∧ Forall (λ e : string * dict Z,
              e.1 ∈ keys (nodes g)
              ∧ Forall (λ sink, sink ∈ keys (nodes g)) (keys e.2)) (edges g).

Global Instance well_formed_dec g : Decision (well_formed g).
Proof. unfold well_formed. apply _. Defined.

(** A multiplicity counts the calls of [add_edge]: it is positive. *)
Definition counted (g : Graph) : Prop :=
  Forall (λ e : string * dict Z, Forall (λ m, (0 < m)%Z) (values e.2)) (edges g).

Global Instance counted_dec g : Decision (counted g).
Proof. unfold counted. apply _. Defined.

(** ** Vocabulary of the statements *)

(** An [n] by [n] list of rows. *)
Definition square (n : nat) (m : list (list Z)) : Prop :=
  length m = n ∧ Forall (λ row, length row = n) m.

Definition cell (m : list (list Z)) (i j : nat) : Z := (m !!! i) !!! j.

(** The ordered pairs the two loops of lines 181-182 visit, in their order. *)
Definition edge_pairs (g : Graph) : list (string * string) :=
  edges g ≫= λ '(source, sinks), pair source <$> keys sinks.

(** The colour line 186-189 gives to an element that is 0 or 1. *)
Definition cell_color (self : GraphRenderer string) (element : Z) : string :=
  if decide (element = 0%Z) then "#ffffff" else out_color self.

(** The statements after line 169 of [render_dependency_matrix], as a
    function of the graph that carries the indices. *)
Definition matrix_data (self : GraphRenderer string) (graph : Graph)
    (node_names : list string) (node_count : nat)
  : result (Graph * MatrixPlot.t) :=
  let matrix := empty_matrix node_count in
  let '(importing, imported) := name_columns node_names in
  matrix ← accumulate graph matrix;
  let colors := assign_colors self (mjoin matrix) in
  Ok (graph, MatrixPlot.mk node_names node_names importing imported colors
               (mjoin matrix)).

(** The multiplicity of the edge from [source] to [destination]. *)
Definition multiplicity (g : Graph) (source destination : string) : option Z :=
  dict_get (edges g) source ≫= λ sinks, dict_get sinks destination.

Definition total_multiplicity (g : Graph) : Z :=
  sum_Z (edges g ≫= λ '(_, sinks), values sinks).

(** The cell of the plotted matrix at [(index[source], index[destination])],
    the indices read from the graph as the call left it. *)
Definition plot_cell (g : Graph) (plot : MatrixPlot.t)
    (source destination : string) : option Z :=
  match get_node g source, get_node g destination with
  | Some s, Some d =>
      match Node.index s, Node.index d with
      | Some i, Some j =>
          MatrixPlot.matrix plot !! (Z.to_nat i * node_count g + Z.to_nat j)
      | _, _ => None
      end
  | _, _ => None
  end.

(** The first sentence of the matrix builder as the specification words
    it: a cell holds the multiplicity of its edge and the cells add up to
    the total multiplicity. *)
Definition accumulates_multiplicity (self : GraphRenderer string) (g : Graph)
  : Prop :=
  ∀ g' plot, render_dependency_matrix self g = Ok (g', plot) →
    (∀ s d m, multiplicity g s d = Some m → plot_cell g' plot s d = Some m)
    ∧ sum_Z (MatrixPlot.matrix plot) = total_multiplicity g.

(** The colour lines 78-81 compute for a node. *)
Definition gradient_color {Color}
    (linear_gradient : Color → Color → Z → Z → result Color)
    (self : GraphRenderer Color) (graph : Graph) (node : string) : result Color :=
  if decide (in_degree graph node = 0%Z ∧ out_degree graph node = 0%Z)
  then Ok (dis_color self)
  else linear_gradient (out_color self) (in_color self)
                       (in_degree graph node) (out_degree graph node).

(** A colour whose channels are in the range of a channel. *)
Definition valid_color (c : rgb) : Prop :=
  (0 ≤ red c ≤ 255)%Z ∧ (0 ≤ green c ≤ 255)%Z ∧ (0 ≤ blue c ≤ 255)%Z.

Global Instance valid_color_dec c : Decision (valid_color c).
Proof. unfold valid_color. apply _. Defined.

(** What every rounding does, to the floor, to the ceiling or to the
    nearest integer: the result is less than 1 away. *)
Definition rounds_within_one (round : Q → Z) : Prop :=
  ∀ q, (inject_Z (round q) - 1 < q)%Q ∧ (q < inject_Z (round q) + 1)%Q.

(** The channel is a rounding of [q] to the range of a channel: it is in
    the range, less than 1 away from [q], and [q] itself when [q] is an
    integer. *)
Definition rounded_to (q : Q) (channel : Z) : Prop :=
  (0 ≤ channel ≤ 255)%Z
  ∧ (inject_Z channel - 1 < q)%Q ∧ (q < inject_Z channel + 1)%Q
  ∧ ∀ z, (q == inject_Z z)%Q → channel = z.

(** The interpolation claim as the specification words it: every channel
    of the colour equals the interpolation. *)
Definition exactly_interpolated (self : GraphRenderer rgb)
    (in_degree out_degree : Z) (c : rgb) : Prop :=
  (inject_Z (red c)
   == interpolate (red (out_color self)) (red (in_color self))
                  in_degree out_degree)%Q
  ∧ (inject_Z (green c)
     == interpolate (green (out_color self)) (green (in_color self))
                    in_degree out_degree)%Q
  ∧ (inject_Z (blue c)
     == interpolate (blue (out_color self)) (blue (in_color self))
                    in_degree out_degree)%Q.

(** The two nodes of an edge, when both names are names of nodes. *)
Definition edge_nodes (g : Graph) (edge : string * string)
  : option (Node.t * Node.t) :=
  begin_node ← get_node g edge.1;
  end_node ← get_node g edge.2;
  Some (begin_node, end_node).

Definition edge_xs (nodes : Node.t * Node.t) : option Qc * option Qc :=
  (Node.x nodes.1, Node.x nodes.2).
Definition edge_ys (nodes : Node.t * Node.t) : option Qc * option Qc :=
  (Node.y nodes.1, Node.y nodes.2).

(** Lines 138 and 142, the labels of the ticks of an axis:
    [dict(zip(range(len(node_names)), node_names))]. *)
Definition major_label_overrides (node_names : list string) : gmap Z string :=
  fold_left (λ labels '(tick, name), <[tick := name]> labels)
            (zip (seqZ 0 (Z.of_nat (length node_names))) node_names) ∅.

(** Two nodes that differ at most by their index. *)
Definition same_but_index (a b : Node.t) : Prop :=
  Node.name a = Node.name b ∧ Node.type a = Node.type b
  ∧ Node.label a = Node.label b ∧ Node.x a = Node.x b ∧ Node.y a = Node.y b
  ∧ Node.width a = Node.width b ∧ Node.height a = Node.height b.

(** Both ends of every edge are nodes of the graph. *)
Definition ends_known (g : Graph) : Prop :=
  ∀ s d, (s, d) ∈ edge_pairs g →
    s ∈ get_all_node_names g ∧ d ∈ get_all_node_names g.

(** The elements the loop of lines 185-191 gives a colour to. *)
Definition colored (element : Z) : Prop :=
  element = 0%Z ∨ element = 1%Z ∨ element = (-1)%Z.

Global Instance colored_dec element : Decision (colored element).
Proof. unfold colored. apply _. Defined.

(** ** Examples *)

(** The default colours of the command line. *)
Definition default_renderer : GraphRenderer string :=
  mkRenderer "#F26D90" "#428AFF" "#FCB16F" "#377FB4" "#82CBBA" "#ECF7B3".

Definition module_node (name : string) : Node.t :=
  Node.mk name "module" name None None None None None.

(** The default colours as channels. *)
Definition rgb_of (r g b : Z) : rgb := mkRgb r g b.
Definition default_rgb_renderer : GraphRenderer rgb :=
  mkRenderer (rgb_of 242 109 144) (rgb_of 66 138 255) (rgb_of 252 177 111)
             (rgb_of 55 127 180) (rgb_of 130 203 186) (rgb_of 236 247 179).

(** A root with a directory and a file; one more edge leads to a name that
    is not a node. *)
Definition example_tree : Graph :=
  mkGraph [("/", Node.mk "/" "root" "/" None None None None None);
           ("/src", Node.mk "/src" "directory" "src" None None None None None);
           ("/README", Node.mk "/README" "file" "README" None None None None None);
           ("/link", Node.mk "/link" "symlink" "link" None None None None None)]
          [("/", [("/src", 1%Z); ("/README", 1%Z); ("/gone", 1%Z)])].

(** A layout that leaves the geometry unset. *)
Definition no_layout (g : Graph) (step_x step_y : Qc) : result Graph := Ok g.

(** [A] and [B] import each other once. *)
Definition two_cycle : Graph :=
  mkGraph [("A", module_node "A"); ("B", module_node "B")]
          [("A", [("B", 1%Z)]); ("B", [("A", 1%Z)])].

(** [A] imports [B] twice, [B] imports [A] once, [C] is isolated. *)
Definition example_graph : Graph :=
  mkGraph [("A", module_node "A"); ("B", module_node "B"); ("C", module_node "C")]
          [("A", [("B", 2%Z)]); ("B", [("A", 1%Z)])].

(** * Properties *)

(** A closed decidable proposition, settled by evaluation. *)
Ltac decide_closed := apply (bool_decide_unpack _); vm_compute; exact I.

(** ** Loops and dictionaries *)

Lemma bind_Ok {A B} (a : A) (k : A → result B) : (Ok a ≫= k) = k a.
Proof. reflexivity. Qed.

Lemma for_each_app {S A} (body : S → A → result S) (l k : list A) (s : S) :
  for_each body (l ++ k) s = s' ← for_each body l s; for_each body k s'.
Proof.
  revert s. induction l as [|a l IH]; intros s; simpl; [done|].
  destruct (body s a) as [s'|e]; simpl; [apply IH | done].
Qed.

Lemma for_each_fmap {S A B} (body : S → B → result S) (f : A → B)
    (l : list A) (s : S) :
  for_each body (f <$> l) s = for_each (λ s a, body s (f a)) l s.
Proof.
  revert s. induction l as [|a l IH]; intros s; simpl; [done|].
  destruct (body s (f a)) as [s'|e]; simpl; [apply IH | done].
Qed.

Lemma dict_get_is_Some {V} (d : dict V) (k : string) :
  is_Some (dict_get d k) ↔ k ∈ keys d.
Proof.
  unfold keys. induction d as [|[k' v] d IH]; csimpl.
  - split; [intros [? ?]; done | intros H; inversion H].
  - rewrite elem_of_cons. destruct (decide (k' = k)) as [->|Hne].
    + split; eauto.
    + rewrite IH. split; [by right | by intros [->|?]].
Qed.

Lemma keys_dict_alter {V} (f : V → V) (k : string) (d : dict V) :
  keys (dict_alter f k d) = keys d.
Proof.
  unfold keys. induction d as [|[k' v] d IH]; csimpl; [done|].
  destruct (decide (k' = k)); csimpl; [done | by f_equal].
Qed.

Lemma length_dict_alter {V} (f : V → V) (k : string) (d : dict V) :
  length (dict_alter f k d) = length d.
Proof.
  induction d as [|[k' v] d IH]; simpl; [done|].
  destruct (decide (k' = k)); simpl; [done | by rewrite IH].
Qed.

Lemma dict_get_alter {V} (f : V → V) (k k' : string) (d : dict V) :
  dict_get (dict_alter f k d) k'
  = if decide (k = k') then f <$> dict_get d k else dict_get d k'.
Proof.
  induction d as [|[k0 v] d IH]; simpl.
  - by destruct (decide (k = k')).
  - destruct (decide (k0 = k)) as [->|Hne]; simpl.
    + destruct (decide (k = k')); simpl; done.
    + rewrite IH. destruct (decide (k = k')) as [->|Hne'].
      * by rewrite decide_False.
      * done.
Qed.

Lemma dict_alter_fixed {V} (f : V → V) (k : string) (d : dict V) :
  (∀ v, dict_get d k = Some v → f v = v) → dict_alter f k d = d.
Proof.
  induction d as [|[k0 v] d IH]; simpl; intros Hf; [done|].
  destruct (decide (k0 = k)) as [->|Hne].
  - by rewrite Hf.
  - by rewrite IH.
Qed.

(** ** The indices of the nodes *)

Lemma node_index_set_node_index g g' name i name' :
  set_node_index g name i = Ok g' →
  node_index g' name'
  = if decide (name = name') then Ok (Some i) else node_index g name'.
Proof.
  unfold set_node_index, node_index, get_node.
  destruct (dict_get (nodes g) name) as [n|] eqn:Hn; [|done].
  intros [= <-]; simpl. rewrite dict_get_alter.
  destruct (decide (name = name')) as [<-|]; [by rewrite Hn | done].
Qed.

Lemma assign_from_spec (names : list string) : ∀ (g : Graph) (start : Z),
  (∀ n, n ∈ names → n ∈ keys (nodes g)) →
  NoDup names →
  ∃ g', for_each (λ g '(index, node), set_node_index g node index)
                 (enumerate_from start names) g = Ok g'
        ∧ edges g' = edges g
        ∧ keys (nodes g') = keys (nodes g)
        ∧ length (nodes g') = length (nodes g)
        ∧ (∀ (k : nat) n, names !! k = Some n →
             node_index g' n = Ok (Some (start + Z.of_nat k)%Z))
        ∧ (∀ n, n ∉ names → node_index g' n = node_index g n).
Proof.
  induction names as [|a names IH]; intros g start Hin Hnd; simpl.
  { exists g. split_and!; try done. }
  apply NoDup_cons in Hnd as [Ha Hnd].
  assert (is_Some (dict_get (nodes g) a)) as [na Hna].
  { apply dict_get_is_Some, Hin. left. }
  destruct (set_node_index g a start) as [g1|e] eqn:Hset; last first.
  { unfold set_node_index, get_node in Hset. by rewrite Hna in Hset. }
  assert (edges g1 = edges g ∧ keys (nodes g1) = keys (nodes g)
          ∧ length (nodes g1) = length (nodes g)) as (He1 & Hk1 & Hl1).
  { unfold set_node_index, get_node in Hset. rewrite Hna in Hset.
    injection Hset as <-; simpl.
    by rewrite keys_dict_alter, length_dict_alter. }
  destruct (IH g1 (start + 1)%Z) as (g' & Hrun & He & Hk & Hl & Hidx & Hout).
  { intros n Hn. rewrite Hk1. apply Hin. by right. }
  { done. }
  exists g'. simpl. split_and!.
  - done.
  - congruence.
  - congruence.
  - congruence.
  - intros [|k] n Hk'; simpl in Hk'.
    + injection Hk' as <-. rewrite Hout by done.
      rewrite (node_index_set_node_index _ _ _ _ _ Hset).
      rewrite decide_True by done. do 2 f_equal. lia.
    + rewrite (Hidx k n Hk'). do 2 f_equal. lia.
  - intros n Hn. apply not_elem_of_cons in Hn as [Hna' Hn].
    rewrite Hout by done.
    rewrite (node_index_set_node_index _ _ _ _ _ Hset).
    by rewrite decide_False.
Qed.

Lemma set_node_index_fixed g name i :
  node_index g name = Ok (Some i) → set_node_index g name i = Ok g.
Proof.
  unfold node_index, set_node_index, get_node.
  destruct (dict_get (nodes g) name) as [n|] eqn:Hn; [|done].
  intros [= Hi]. f_equal. destruct g as [ns es]; simpl in *. f_equal.
  apply dict_alter_fixed. intros v Hv. rewrite Hn in Hv. injection Hv as <-.
  destruct n; simpl in *. unfold Node.set_index; simpl. by rewrite Hi.
Qed.

Lemma assign_from_fixed (names : list string) : ∀ (g : Graph) (start : Z),
  (∀ (k : nat) n, names !! k = Some n →
     node_index g n = Ok (Some (start + Z.of_nat k)%Z)) →
  for_each (λ g '(index, node), set_node_index g node index)
           (enumerate_from start names) g = Ok g.
Proof.
  induction names as [|a names IH]; intros g start Hidx; simpl; [done|].
  rewrite set_node_index_fixed; simpl.
  - apply IH. intros k n Hk. rewrite (Hidx (S k) n Hk). do 2 f_equal. lia.
  - rewrite (Hidx 0 a eq_refl). do 2 f_equal. lia.
Qed.

(** ** The matrix *)

Lemma accumulate_edge_pairs g m :
  accumulate g m = for_each (λ m '(s, d), increment g m s d) (edge_pairs g) m.
Proof.
  unfold accumulate, edges_iter, edge_pairs. revert m.
  induction (edges g) as [|[s sinks] es IH]; intros m; csimpl; [done|].
  rewrite for_each_app, for_each_fmap.
  destruct (for_each _ (keys sinks) m) as [m'|e]; simpl; [apply IH | done].
Qed.

Lemma subscript_nat {A} (l : list A) (p : nat) (a : A) :
  l !! p = Some a → subscript l (Some (Z.of_nat p)) = Ok (p, a).
Proof.
  intros Hp. unfold subscript.
  destruct (Z.ltb_spec (Z.of_nat p) 0) as [|_]; [lia|].
  destruct (Z.ltb_spec (Z.of_nat p) 0) as [|_]; [lia|].
  by rewrite Nat2Z.id, Hp.
Qed.

Lemma sum_Z_app (l k : list Z) : sum_Z (l ++ k) = (sum_Z l + sum_Z k)%Z.
Proof. unfold sum_Z. induction l as [|x l IH]; simpl; lia. Qed.

Lemma sum_Z_insert (l : list Z) (i : nat) (x y : Z) :
  l !! i = Some x → sum_Z (<[i := y]> l) = (sum_Z l - x + y)%Z.
Proof.
  revert i. induction l as [|z l IH]; intros [|i] Hi; simplify_eq/=.
  - unfold sum_Z; simpl. lia.
  - specialize (IH i Hi). unfold sum_Z in *; simpl. lia.
Qed.

Lemma sum_Z_join_insert (m : list (list Z)) (i : nat) (row row' : list Z) :
  m !! i = Some row →
  sum_Z (mjoin (<[i := row']> m)) = (sum_Z (mjoin m) - sum_Z row + sum_Z row')%Z.
Proof.
  revert i. induction m as [|r m IH]; intros [|i] Hi; simplify_eq/=.
  - rewrite !sum_Z_app. lia.
  - rewrite !sum_Z_app, (IH i Hi). lia.
Qed.

Lemma square_lookup n m i :
  square n m → i < n → ∃ row, m !! i = Some row ∧ length row = n.
Proof.
  intros [Hlen Hrows] Hi.
  destruct (lookup_lt_is_Some_2 m i) as [row Hrow]; [lia|].
  exists row. split; [done|]. by eapply (Forall_lookup_1 _ _ _ _ Hrows).
Qed.

(** One execution of line 183 on a square matrix, for two nodes whose
    indices are positions of the matrix. *)
Lemma increment_spec n g m s d (a b : nat) :
  square n m → a < n → b < n →
  node_index g s = Ok (Some (Z.of_nat a)) →
  node_index g d = Ok (Some (Z.of_nat b)) →
  ∃ m', increment g m s d = Ok m'
        ∧ square n m'
        ∧ sum_Z (mjoin m') = (sum_Z (mjoin m) + 1)%Z
        ∧ ∀ i j, cell m' i j
                 = (cell m i j + if decide (i = a ∧ j = b) then 1 else 0)%Z.
Proof.
  intros Hsq Ha Hb Hs Hd.
  destruct (square_lookup n m a Hsq Ha) as (row & Hrow & Hlen).
  destruct (lookup_lt_is_Some_2 row b) as [x Hx]; [lia|].
  unfold increment. rewrite Hs, bind_Ok, (subscript_nat _ _ _ Hrow), bind_Ok.
  rewrite Hd, bind_Ok, (subscript_nat _ _ _ Hx), bind_Ok.
  eexists. split; [done|]. destruct Hsq as [Hm Hrows]. split_and!.
  - split; [by rewrite length_insert|].
    apply Forall_insert; [done|]. by rewrite length_insert.
  - rewrite (sum_Z_join_insert _ _ _ _ Hrow), (sum_Z_insert _ _ _ _ Hx). lia.
  - intros i j. unfold cell.
    destruct (decide (i = a)) as [->|Hia].
    + rewrite list_lookup_total_insert_eq by lia.
      rewrite (list_lookup_total_correct _ _ _ Hrow).
      destruct (decide (j = b)) as [->|Hjb].
      * rewrite list_lookup_total_insert_eq by lia.
        rewrite (list_lookup_total_correct _ _ _ Hx).
        rewrite decide_True by done. done.
      * rewrite list_lookup_total_insert_ne by done.
        rewrite decide_False by (by intros [_ ?]). lia.
    + rewrite list_lookup_total_insert_ne by done.
      rewrite decide_False by (by intros [? _]). lia.
Qed.

Lemma square_empty_matrix n : square n (empty_matrix n).
Proof.
  unfold empty_matrix. split; [apply length_replicate|].
  apply Forall_replicate, length_replicate.
Qed.

Lemma cell_empty_matrix n i j :
  i < n → j < n → cell (empty_matrix n) i j = 0%Z.
Proof.
  intros Hi Hj. unfold cell, empty_matrix.
  by rewrite !lookup_total_replicate_2.
Qed.

Lemma sum_Z_replicate_zero n : sum_Z (replicate n 0%Z) = 0%Z.
Proof. unfold sum_Z. induction n; simpl; lia. Qed.

Lemma sum_Z_join_replicate k (row : list Z) :
  sum_Z row = 0%Z → sum_Z (mjoin (replicate k row)) = 0%Z.
Proof.
  intros Hrow. induction k as [|k IH]; csimpl; [done|].
  rewrite sum_Z_app. lia.
Qed.

Lemma sum_Z_empty_matrix n : sum_Z (mjoin (empty_matrix n)) = 0%Z.
Proof. apply sum_Z_join_replicate, sum_Z_replicate_zero. Qed.

Lemma for_each_invariant {S A} (P : S → Prop) (body : S → A → result S) :
  (∀ s a s', P s → body s a = Ok s' → P s') →
  ∀ items s s', P s → for_each body items s = Ok s' → P s'.
Proof.
  intros Hbody. induction items as [|a items IH]; intros s s' Hs; simpl.
  - by intros [= <-].
  - destruct (body s a) as [s1|e] eqn:Hb; simpl; [|done].
    apply IH. by eapply Hbody.
Qed.

Lemma subscript_Ok {A} (l : list A) (i : option Z) (p : nat) (a : A) :
  subscript l i = Ok (p, a) → l !! p = Some a.
Proof.
  unfold subscript. destruct i as [i|]; [|done].
  destruct (_ <? 0)%Z; [done|].
  destruct (l !! _) as [a'|] eqn:Hl; [|done]. by intros [= <- <-].
Qed.

(** The accumulation only adds: whatever the graph, an element that was not
    negative stays so. *)
Lemma increment_nonneg g m s d m' :
  Forall (Forall (λ c, 0 ≤ c)%Z) m →
  increment g m s d = Ok m' →
  Forall (Forall (λ c, 0 ≤ c)%Z) m'.
Proof.
  intros Hm. unfold increment.
  destruct (node_index g s) as [i|]; [rewrite bind_Ok|done].
  destruct (subscript m i) as [[p row]|] eqn:Hp; [rewrite bind_Ok|done].
  destruct (node_index g d) as [j|]; [rewrite bind_Ok|done].
  destruct (subscript row j) as [[q c]|] eqn:Hq; [rewrite bind_Ok|done].
  intros [= <-]. apply subscript_Ok in Hp, Hq.
  assert (Forall (λ c, 0 ≤ c)%Z row) as Hrow
    by (by eapply (Forall_lookup_1 _ _ _ _ Hm)).
  assert (0 ≤ c)%Z by (by eapply (Forall_lookup_1 _ _ _ _ Hrow)).
  apply Forall_insert; [done|]. apply Forall_insert; [done|lia].
Qed.

Lemma accumulate_nonneg g m m' :
  Forall (Forall (λ c, 0 ≤ c)%Z) m →
  accumulate g m = Ok m' →
  Forall (Forall (λ c, 0 ≤ c)%Z) m'.
Proof.
  rewrite accumulate_edge_pairs.
  apply for_each_invariant. intros m1 [s d] m2. apply increment_nonneg.
Qed.

Lemma empty_matrix_nonneg n :
  Forall (Forall (λ c, 0 ≤ c)%Z) (empty_matrix n).
Proof. unfold empty_matrix. apply Forall_replicate, Forall_replicate. lia. Qed.

Section accumulation.
Variable g : Graph.
Variable names : list string.
Hypothesis names_NoDup : NoDup names.
Hypothesis names_index : ∀ (k : nat) name,
  names !! k = Some name → node_index g name = Ok (Some (Z.of_nat k)).

Lemma names_position name : name ∈ names →
  ∃ k, names !! k = Some name ∧ k < length names.
Proof.
  intros [k Hk]%list_elem_of_lookup. exists k. split; [done|].
  by eapply lookup_lt_Some.
Qed.

Lemma accumulate_pairs_spec (ps : list (string * string)) :
  ∀ m, NoDup ps →
    (∀ s d, (s, d) ∈ ps → s ∈ names ∧ d ∈ names) →
    square (length names) m →
    ∃ m', for_each (λ m '(s, d), increment g m s d) ps m = Ok m'
          ∧ square (length names) m'
          ∧ sum_Z (mjoin m') = (sum_Z (mjoin m) + Z.of_nat (length ps))%Z
          ∧ ∀ i j s d, names !! i = Some s → names !! j = Some d →
              cell m' i j
              = (cell m i j + if decide ((s, d) ∈ ps) then 1 else 0)%Z.
Proof.
  induction ps as [|[s0 d0] ps IH]; intros m Hnd Hin Hsq.
  { exists m. split_and!; try done.
    - simpl. lia.
    - intros i j s d _ _. rewrite decide_False; [lia|]. apply not_elem_of_nil. }
  apply NoDup_cons in Hnd as [Hp Hnd].
  destruct (Hin s0 d0) as [Hs0 Hd0]; [left|].
  destruct (names_position s0 Hs0) as (a & Ha & Halt).
  destruct (names_position d0 Hd0) as (b & Hb & Hblt).
  destruct (increment_spec _ g m s0 d0 a b Hsq Halt Hblt
              (names_index _ _ Ha) (names_index _ _ Hb))
    as (m1 & Hinc & Hsq1 & Hsum1 & Hcell1).
  destruct (IH m1 Hnd) as (m' & Hrun & Hsq' & Hsum' & Hcell'); [|done|].
  { intros s d Hsd. apply Hin. by right. }
  exists m'. split_and!.
  - simpl. by rewrite Hinc, bind_Ok.
  - done.
  - rewrite Hsum', Hsum1. simpl length. lia.
  - intros i j s d Hi Hj. rewrite (Hcell' i j s d Hi Hj), Hcell1.
    destruct (decide (i = a ∧ j = b)) as [[-> ->]|Hne].
    + assert (s = s0) as -> by congruence.
      assert (d = d0) as -> by congruence.
      rewrite (decide_False (P := (s0, d0) ∈ ps)) by done.
      rewrite decide_True by left. lia.
    + assert ((s, d) ≠ (s0, d0)) as Hne'.
      { intros [= Hs Hd]. apply Hne. subst s d.
        split; [exact (NoDup_lookup names i a s0 names_NoDup Hi Ha)
               | exact (NoDup_lookup names j b d0 names_NoDup Hj Hb)]. }
      destruct (decide ((s, d) ∈ ps)) as [Hsd|Hsd].
      * rewrite decide_True by (by right). lia.
      * rewrite decide_False; [lia|].
        by intros [?|?]%elem_of_cons.
Qed.
End accumulation.

(** ** The columns of the data source *)

Lemma name_columns_inner (s : string) (l importing imported : list string) :
  fold_left (λ '(importing, imported) sink_node,
               (importing ++ [s], imported ++ [sink_node])) l
            (importing, imported)
  = (importing ++ replicate (length l) s, imported ++ l).
Proof.
  revert importing imported.
  induction l as [|a l IH]; intros importing imported; simpl.
  - by rewrite !app_nil_r.
  - rewrite IH, <- !app_assoc. done.
Qed.

Lemma name_columns_spec (names : list string) :
  name_columns names
  = (mjoin (replicate (length names) <$> names),
     mjoin ((λ _, names) <$> names)).
Proof.
  unfold name_columns.
  enough (∀ l importing imported : list string,
    fold_left (λ data source_node,
      fold_left (λ '(importing, imported) sink_node,
                   (importing ++ [source_node], imported ++ [sink_node]))
                names data) l (importing, imported)
    = (importing ++ mjoin (replicate (length names) <$> l),
       imported ++ mjoin ((λ _, names) <$> l))) as H by apply (H names [] []).
  induction l as [|a l IH]; intros importing imported; csimpl.
  - by rewrite !app_nil_r.
  - rewrite name_columns_inner, IH, <- !app_assoc. done.
Qed.

Lemma lookup_join_rows {A} (n : nat) (rows : list (list A)) (i j : nat) :
  Forall (λ row, length row = n) rows → j < n →
  mjoin rows !! (i * n + j) = rows !! i ≫= (.!! j).
Proof.
  intros Hrows Hj.
  destruct (rows !! i) as [row|] eqn:Hi; simpl.
  - destruct (row !! j) as [a|] eqn:Ha.
    + apply (join_lookup_Some_same_length' n); eauto.
    + apply lookup_ge_None_1 in Ha.
      assert (length row = n) by (by eapply (Forall_lookup_1 _ _ _ _ Hrows)).
      lia.
  - apply lookup_ge_None_1 in Hi. apply lookup_ge_None_2.
    rewrite length_join, (sum_list_fmap_same n) by done. nia.
Qed.

Lemma length_join_rows {A} (n : nat) (rows : list (list A)) :
  Forall (λ row, length row = n) rows →
  length (mjoin rows) = length rows * n.
Proof. intros Hrows. by rewrite length_join, (sum_list_fmap_same n). Qed.

Lemma lookup_join_square n m i j :
  square n m → i < n → j < n → mjoin m !! (i * n + j) = Some (cell m i j).
Proof.
  intros Hsq Hi Hj. destruct (square_lookup n m i Hsq Hi) as (row & Hrow & Hlen).
  destruct Hsq as [_ Hrows]. rewrite (lookup_join_rows n) by done.
  rewrite Hrow; simpl. unfold cell.
  rewrite (list_lookup_total_correct _ _ _ Hrow).
  apply list_lookup_lookup_total_lt. lia.
Qed.

Lemma lookup_join_square_inv n m k c :
  square n m → mjoin m !! k = Some c →
  ∃ i j, k = i * n + j ∧ i < n ∧ j < n ∧ c = cell m i j.
Proof.
  intros Hsq Hk. pose proof Hsq as [Hlen Hrows].
  apply (join_lookup_Some_same_length n) in Hk as (i & row & j & Hi & Hj & ->);
    [|done].
  assert (length row = n) by (by eapply (Forall_lookup_1 _ _ _ _ Hrows)).
  apply lookup_lt_Some in Hi as Hi'. apply lookup_lt_Some in Hj as Hj'.
  exists i, j. split_and!; try lia.
  unfold cell. rewrite (list_lookup_total_correct _ _ _ Hi).
  by rewrite (list_lookup_total_correct _ _ _ Hj).
Qed.

Lemma assign_colors_binary self (elements : list Z) :
  Forall (λ c, c = 0 ∨ c = 1)%Z elements →
  assign_colors self elements = cell_color self <$> elements.
Proof.
  unfold assign_colors.
  enough (∀ colors, Forall (λ c, c = 0 ∨ c = 1)%Z elements →
    fold_left (append_color self) elements colors
    = colors ++ (cell_color self <$> elements)) as H by apply H.
  induction elements as [|c l IH]; intros colors Hl; csimpl.
  - by rewrite app_nil_r.
  - apply Forall_cons in Hl as [Hc Hl]. rewrite IH by done.
    unfold append_color, cell_color.
    destruct Hc as [-> | ->]; simpl; by rewrite <- app_assoc.
Qed.

(** ** The pairs of a well-formed graph *)

Lemma elem_of_edge_pairs g s d :
  (s, d) ∈ edge_pairs g ↔ ∃ sinks, (s, sinks) ∈ edges g ∧ d ∈ keys sinks.
Proof.
  unfold edge_pairs. rewrite list_elem_of_bind. split.
  - intros ([s' sinks] & Hin & Hel).
    apply list_elem_of_fmap in Hin as (d' & [= -> ->] & Hd). eauto.
  - intros (sinks & Hel & Hd). exists (s, sinks). split; [|done].
    apply list_elem_of_fmap. eauto.
Qed.

Lemma edge_pairs_known g s d :
  well_formed g → (s, d) ∈ edge_pairs g →
  s ∈ keys (nodes g) ∧ d ∈ keys (nodes g).
Proof.
  intros (_ & _ & _ & Hknown) (sinks & Hel & Hd)%elem_of_edge_pairs.
  rewrite Forall_forall in Hknown. destruct (Hknown _ Hel) as [Hs Hds].
  split; [done|]. rewrite Forall_forall in Hds. by apply Hds.
Qed.

Lemma edge_pairs_NoDup g : well_formed g → NoDup (edge_pairs g).
Proof.
  intros (_ & Hsrc & Hsinks & _). unfold edge_pairs.
  induction (edges g) as [|[s sinks] es IH]; csimpl; [constructor|].
  unfold keys in Hsrc; csimpl in Hsrc.
  apply NoDup_cons in Hsrc as [Hs Hsrc].
  apply Forall_cons in Hsinks as [Hk Hsinks].
  apply NoDup_app. split_and!.
  - apply NoDup_fmap_2_strong; [|done]. by intros ?? _ _ [= ->].
  - intros [s' d'] (d & [= -> ->] & Hd)%list_elem_of_fmap Hcontra.
    apply list_elem_of_bind in Hcontra as ([s2 sinks2] & Hin & Hel).
    apply list_elem_of_fmap in Hin as (d2 & [= -> ->] & _).
    apply Hs. apply list_elem_of_fmap. by exists (s2, sinks2).
  - by apply IH.
Qed.

(** ** What render_dependency_matrix computes on a well-formed graph *)

Lemma render_dependency_matrix_spec (self : GraphRenderer string) (g : Graph) :
  well_formed g →
  let names := reverse (get_all_node_names g) in
  let n := node_count g in
  ∃ g' m,
    render_dependency_matrix self g
    = Ok (g', MatrixPlot.mk names names
                (mjoin (replicate n <$> names))
                (mjoin ((λ _, names) <$> names))
                (cell_color self <$> mjoin m) (mjoin m))
    ∧ length names = n
    ∧ NoDup names
    ∧ square n m
    ∧ edges g' = edges g
    ∧ get_all_node_names g' = get_all_node_names g
    ∧ node_count g' = n
    ∧ (∀ (k : nat) name, names !! k = Some name →
         node_index g' name = Ok (Some (Z.of_nat k)))
    ∧ (∀ i j s d, names !! i = Some s → names !! j = Some d →
         cell m i j = if decide ((s, d) ∈ edge_pairs g) then 1%Z else 0%Z)
    ∧ sum_Z (mjoin m) = Z.of_nat (length (edge_pairs g)).
Proof.
  intros Hwf names n. pose proof Hwf as (Hnodes & _).
  assert (length names = n) as Hlen.
  { unfold names, n, get_all_node_names, node_count, keys.
    by rewrite length_reverse, length_fmap. }
  assert (NoDup names) as Hnd.
  { unfold names, get_all_node_names. by rewrite reverse_Permutation. }
  destruct (assign_from_spec names g 0) as (g' & Hrun & He & Hk & Hl & Hidx & _).
  { intros name Hname. unfold names in Hname.
    by rewrite elem_of_reverse in Hname. }
  { done. }
  assert (∀ (k : nat) name, names !! k = Some name →
            node_index g' name = Ok (Some (Z.of_nat k))) as Hidx'.
  { intros k name Hkn. by rewrite (Hidx k name Hkn). }
  assert (edge_pairs g' = edge_pairs g) as Hpairs
    by (unfold edge_pairs; by rewrite He).
  destruct (accumulate_pairs_spec g' names Hnd Hidx' (edge_pairs g)
              (empty_matrix n))
    as (m & Hacc & Hsq & Hsum & Hcell).
  { by apply edge_pairs_NoDup. }
  { intros s d Hsd. destruct (edge_pairs_known g s d Hwf Hsd) as [Hs Hd].
    unfold names, get_all_node_names. by rewrite !elem_of_reverse. }
  { rewrite Hlen. apply square_empty_matrix. }
  rewrite Hlen in Hsq.
  assert (∀ i j s d, names !! i = Some s → names !! j = Some d →
            cell m i j = if decide ((s, d) ∈ edge_pairs g) then 1%Z else 0%Z)
    as Hcell'.
  { intros i j s d Hi Hj. rewrite (Hcell i j s d Hi Hj).
    apply lookup_lt_Some in Hi as Hi'. apply lookup_lt_Some in Hj as Hj'.
    rewrite cell_empty_matrix by lia. by destruct (decide _). }
  assert (Forall (λ c, c = 0 ∨ c = 1)%Z (mjoin m)) as Hbin.
  { apply Forall_forall. intros c [k Hc]%list_elem_of_lookup.
    destruct (lookup_join_square_inv n m k c Hsq Hc) as (i & j & _ & Hi & Hj & ->).
    destruct (lookup_lt_is_Some_2 names i) as [s Hs]; [lia|].
    destruct (lookup_lt_is_Some_2 names j) as [d Hd]; [lia|].
    rewrite (Hcell' i j s d Hs Hd). destruct (decide _); auto. }
  exists g', m. split_and!.
  - unfold render_dependency_matrix. fold names. fold n.
    unfold assign_indices, enumerate. rewrite Hrun, bind_Ok.
    rewrite name_columns_spec, Hlen.
    rewrite accumulate_edge_pairs, Hpairs, Hacc, bind_Ok.
    by rewrite assign_colors_binary.
  - exact Hlen.
  - exact Hnd.
  - exact Hsq.
  - exact He.
  - exact Hk.
  - exact Hl.
  - exact Hidx'.
  - exact Hcell'.
  - rewrite Hsum, sum_Z_empty_matrix. lia.
Qed.

Lemma dict_get_Some_elem {V} (d : dict V) (k : string) (v : V) :
  dict_get d k = Some v → (k, v) ∈ d.
Proof.
  induction d as [|[k' v'] d IH]; simpl; [done|].
  destruct (decide (k' = k)) as [->|Hne].
  - intros [= ->]. left.
  - intros H. right. by apply IH.
Qed.

Lemma multiplicity_edge_pair g s d m :
  multiplicity g s d = Some m → (s, d) ∈ edge_pairs g.
Proof.
  unfold multiplicity. intros Hm.
  destruct (dict_get (edges g) s) as [sinks|] eqn:Hs; [|done]. simpl in Hm.
  apply elem_of_edge_pairs. exists sinks. split.
  - by apply dict_get_Some_elem.
  - apply dict_get_is_Some. eauto.
Qed.

Lemma node_index_Some g name i :
  node_index g name = Ok (Some i) ↔
  ∃ node, get_node g name = Some node ∧ Node.index node = Some i.
Proof.
  unfold node_index. destruct (get_node g name) as [node|].
  - split; [intros [= H]; eauto | intros (? & [= <-] & ->); done].
  - split; [done | intros (? & ? & _); done].
Qed.

Lemma render_dependency_matrix_unfold self g :
  render_dependency_matrix self g
  = graph ← assign_indices g (reverse (get_all_node_names g));
    matrix_data self graph (reverse (get_all_node_names g)) (node_count g).
Proof. reflexivity. Qed.

Lemma matrix_data_graph self g names n g' plot :
  matrix_data self g names n = Ok (g', plot) → g' = g.
Proof.
  unfold matrix_data. destruct (name_columns names) as [importing imported].
  destruct (accumulate g (empty_matrix n)) as [m|e]; [|done].
  by intros [= <- _].
Qed.

Lemma Forall_mjoin {A} (P : A → Prop) (ls : list (list A)) :
  Forall (Forall P) ls → Forall P (mjoin ls).
Proof.
  induction 1 as [|l ls Hl Hls IH]; csimpl; [done|]. by apply Forall_app.
Qed.

(** Whatever the graph, a matrix that is plotted has no negative element. *)
Lemma render_dependency_matrix_nonneg self g g' plot :
  render_dependency_matrix self g = Ok (g', plot) →
  Forall (λ c, 0 ≤ c)%Z (MatrixPlot.matrix plot).
Proof.
  rewrite render_dependency_matrix_unfold.
  destruct (assign_indices g _) as [g1|e]; [rewrite bind_Ok|done].
  unfold matrix_data. destruct (name_columns _) as [importing imported].
  destruct (accumulate g1 _) as [m|e] eqn:Hacc; [rewrite bind_Ok|done].
  intros [= _ <-]; simpl. apply Forall_mjoin.
  eapply accumulate_nonneg; [apply empty_matrix_nonneg | exact Hacc].
Qed.

(** Without a negative element the colours do not depend on [in_color]. *)
Lemma assign_colors_nonneg self other (elements : list Z) :
  Forall (λ c, 0 ≤ c)%Z elements →
  out_color self = out_color other →
  assign_colors self elements = assign_colors other elements.
Proof.
  intros Hpos Hout. unfold assign_colors. generalize (@nil string) as colors.
  induction Hpos as [|c l Hc Hl IH]; intros colors; simpl; [done|].
  replace (append_color self colors c) with (append_color other colors c);
    [apply IH|].
  unfold append_color. rewrite Hout.
  repeat case_decide; try done; lia.
Qed.

(** The axes, the name columns and the indices the call leaves. *)
Lemma matrix_axes_and_cells (self : GraphRenderer string) (g : Graph) :
  well_formed g →
  let N := node_count g in
  let names := reverse (get_all_node_names g) in
  ∃ g' plot,
    render_dependency_matrix self g = Ok (g', plot)
    ∧ MatrixPlot.x_range plot = names
    ∧ MatrixPlot.y_range plot = names
    ∧ (∀ i j, i < N → j < N →
         MatrixPlot.importing_name plot !! (i * N + j) = names !! i
         ∧ MatrixPlot.imported_name plot !! (i * N + j) = names !! j)
    ∧ get_all_node_names g' = get_all_node_names g
    ∧ (∀ (k : nat) name, names !! k = Some name →
         node_index g' name = Ok (Some (Z.of_nat k))).
Proof.
  intros Hwf N names.
  destruct (render_dependency_matrix_spec self g Hwf)
    as (g' & m & Hrun & Hlen & Hnd & Hsq & He & Hk & Hn & Hidx & _).
  fold N names in Hrun, Hlen, Hsq, Hidx.
  assert (Forall (λ row : list string, length row = N) (replicate N <$> names))
    as Hrows1.
  { apply Forall_fmap, Forall_forall. intros s _. apply length_replicate. }
  assert (Forall (λ row : list string, length row = N) ((λ _, names) <$> names))
    as Hrows2.
  { apply Forall_fmap, Forall_forall. intros s _. exact Hlen. }
  eexists g', _. split; [exact Hrun|]. simpl. split_and!; try done.
  intros i j Hi Hj. split.
  - rewrite (lookup_join_rows N) by done. rewrite list_lookup_fmap.
    destruct (lookup_lt_is_Some_2 names i) as [s Hs]; [lia|].
    rewrite Hs; simpl. by apply lookup_replicate_2.
  - rewrite (lookup_join_rows N) by done. rewrite list_lookup_fmap.
    destruct (lookup_lt_is_Some_2 names i) as [s Hs]; [lia|].
    by rewrite Hs.
Qed.

(** ** The colouring of the dependency graph *)

Lemma sum_Z_nonneg (l : list Z) : Forall (λ m, 0 < m)%Z l → (0 ≤ sum_Z l)%Z.
Proof. unfold sum_Z. induction 1; simpl; lia. Qed.

Lemma in_degree_nonneg g node : counted g → (0 ≤ in_degree g node)%Z.
Proof.
  intros Hc. apply sum_Z_nonneg. unfold in_degree.
  induction Hc as [|[s sinks] es Hs Hes IH]; simpl; [done|].
  apply Forall_app. split; [|done]. clear -Hs. simpl in Hs.
  induction sinks as [|[d m] sinks IH]; simpl; [done|].
  unfold values in Hs; csimpl in Hs. apply Forall_cons in Hs as [Hm Hs].
  apply Forall_app. split; [|by apply IH].
  destruct (decide (d = node)); [by constructor | constructor].
Qed.

Lemma out_degree_nonneg g node : counted g → (0 ≤ out_degree g node)%Z.
Proof.
  intros Hc. apply sum_Z_nonneg. unfold out_degree.
  induction Hc as [|[s sinks] es Hs Hes IH]; simpl; [done|].
  apply Forall_app. split; [|done].
  destruct (decide (s = node)); [done | constructor].
Qed.

Section coloring.
Context {Color : Type}.
Variable linear_gradient : Color → Color → Z → Z → result Color.
Variable self : GraphRenderer Color.
Variable g : Graph.

Lemma color_node_unfold attrs node :
  color_node linear_gradient self g attrs node
  = color ← gradient_color linear_gradient self g node;
    Ok (mkNodeAttrs (<[node := color]> (node_color attrs))
                    (<[node := node]> (node_name attrs))).
Proof. reflexivity. Qed.

(** The loop returns as soon as the gradient does on every node. *)
Lemma color_nodes_returns (names : list string) : ∀ attrs,
  (∀ node, node ∈ names →
     ∃ c, gradient_color linear_gradient self g node = Ok c) →
  ∃ attrs', for_each (color_node linear_gradient self g) names attrs = Ok attrs'.
Proof.
  induction names as [|a names IH]; intros attrs Hok; simpl; [eauto|].
  destruct (Hok a) as [c Hc]; [left|].
  rewrite color_node_unfold, Hc, !bind_Ok. apply IH.
  intros node Hnode. apply Hok. by right.
Qed.

(** After the loop a node of the list carries the colour computed for
    it; the other entries are as they were. *)
Lemma color_nodes_spec (names : list string) : ∀ attrs attrs',
  for_each (color_node linear_gradient self g) names attrs = Ok attrs' →
  ∀ node,
    (node ∈ names →
       ∃ c, gradient_color linear_gradient self g node = Ok c
            ∧ node_color attrs' !! node = Some c)
    ∧ (node ∉ names → node_color attrs' !! node = node_color attrs !! node).
Proof.
  induction names as [|a names IH]; intros attrs attrs'; simpl.
  { intros [= <-] node. split; [by intros ?%elem_of_nil | done]. }
  rewrite color_node_unfold.
  destruct (gradient_color linear_gradient self g a) as [c|e] eqn:Hc; [|done].
  rewrite !bind_Ok. intros Hrun node.
  destruct (IH _ _ Hrun node) as [Hin Hout].
  destruct (IH _ _ Hrun a) as [_ Houta]. simpl in *.
  split.
  - intros Hnode. destruct (decide (node ∈ names)) as [Hn|Hn]; [by apply Hin|].
    apply elem_of_cons in Hnode as [->|?]; [|done].
    exists c. split; [done|]. by rewrite Houta, lookup_insert_eq.
  - intros [Hne Hn]%not_elem_of_cons.
    by rewrite Hout, lookup_insert_ne.
Qed.
End coloring.

Lemma linear_gradient_returns (round : Q → Z) (start finish : rgb) (i o : Z) :
  (i + o)%Z ≠ 0%Z →
  linear_gradient round start finish i o
  = Ok (mkRgb (mix_channel round (red start) (red finish) i o)
              (mix_channel round (green start) (green finish) i o)
              (mix_channel round (blue start) (blue finish) i o)).
Proof. intros Hne. unfold linear_gradient. by rewrite decide_False. Qed.

Lemma interpolate_fraction (o i a b : Z) :
  (a + b)%Z ≠ 0%Z →
  (interpolate o i a b == inject_Z (o * b + i * a) / inject_Z (a + b))%Q.
Proof.
  intros Hne. unfold interpolate.
  rewrite !inject_Z_plus, !inject_Z_mult.
  field. rewrite <- inject_Z_plus. intros H.
  apply (inject_Z_injective (a + b) 0) in H. done.
Qed.

(** Between two channels of the range, the interpolation is in the range. *)
Lemma interpolate_range (o i a b : Z) :
  (0 ≤ o ≤ 255)%Z → (0 ≤ i ≤ 255)%Z → (0 ≤ a)%Z → (0 ≤ b)%Z → (0 < a + b)%Z →
  (0 <= interpolate o i a b)%Q ∧ (interpolate o i a b <= 255)%Q.
Proof.
  intros Ho Hi Ha Hb Hab. rewrite interpolate_fraction by lia.
  assert (0 < inject_Z (a + b))%Q as Hd.
  { change 0%Q with (inject_Z 0). by rewrite <- Zlt_Qlt. }
  split.
  - apply Qle_shift_div_l; [done|]. rewrite Qmult_0_l.
    change 0%Q with (inject_Z 0). rewrite <- Zle_Qle. nia.
  - apply Qle_shift_div_r; [done|].
    change 255%Q with (inject_Z 255). rewrite <- inject_Z_mult.
    rewrite <- Zle_Qle. nia.
Qed.

Lemma within_one_integer (q : Q) (c z : Z) :
  (inject_Z c - 1 < q)%Q → (q < inject_Z c + 1)%Q → (q == inject_Z z)%Q →
  c = z.
Proof.
  intros Hl Hu Hq. rewrite Hq in Hl, Hu.
  assert (inject_Z c < inject_Z (z + 1))%Q as H1.
  { rewrite inject_Z_plus. change (inject_Z 1) with 1%Q. lra. }
  assert (inject_Z z < inject_Z (c + 1))%Q as H2.
  { rewrite inject_Z_plus. change (inject_Z 1) with 1%Q. lra. }
  rewrite <- Zlt_Qlt in H1, H2. lia.
Qed.

(** A channel that is mixed is a rounding of the interpolation; the clamp
    has nothing left to do. *)
Lemma mix_channel_rounded (round : Q → Z) (o i a b : Z) :
  rounds_within_one round →
  (0 ≤ o ≤ 255)%Z → (0 ≤ i ≤ 255)%Z → (0 ≤ a)%Z → (0 ≤ b)%Z → (0 < a + b)%Z →
  rounded_to (interpolate o i a b) (mix_channel round o i a b).
Proof.
  intros Hround Ho Hi Ha Hb Hab. unfold mix_channel.
  destruct (interpolate_range o i a b Ho Hi Ha Hb Hab) as [H0 H255].
  destruct (Hround (interpolate o i a b)) as [Hl Hu].
  set (q := interpolate o i a b) in *. set (r := round q) in *.
  assert (clamp r = r) as ->.
  { assert (inject_Z r < inject_Z 256)%Q as H1
      by (change (inject_Z 256) with 256%Q; lra).
    assert (inject_Z (-1) < inject_Z r)%Q as H2
      by (change (inject_Z (-1)) with (-1)%Q; lra).
    rewrite <- Zlt_Qlt in H1, H2. unfold clamp. lia. }
  assert (inject_Z r < inject_Z 256)%Q as H1
    by (change (inject_Z 256) with 256%Q; lra).
  assert (inject_Z (-1) < inject_Z r)%Q as H2
    by (change (inject_Z (-1)) with (-1)%Q; lra).
  rewrite <- Zlt_Qlt in H1, H2.
  split_and!; [lia | lia | exact Hl | exact Hu |].
  intros z Hz. by apply (within_one_integer q).
Qed.

Lemma interpolate_pure_importer (o i k : Z) :
  (interpolate o i 0 k == inject_Z o)%Q.
Proof.
  unfold interpolate. change (inject_Z 0) with 0%Q.
  unfold Qdiv. rewrite Qmult_0_l, Qmult_0_r. apply Qplus_0_r.
Qed.

Lemma interpolate_pure_imported (o i k : Z) :
  k ≠ 0%Z → (interpolate o i k 0 == inject_Z i)%Q.
Proof.
  intros Hk. unfold interpolate. rewrite Z.add_0_r. field.
  intros H. by apply (inject_Z_injective k 0) in H.
Qed.

Lemma interpolate_midpoint (o i k : Z) :
  k ≠ 0%Z → (interpolate o i k k == inject_Z (o + i) / 2)%Q.
Proof.
  intros Hk. unfold interpolate. rewrite !inject_Z_plus. field.
  rewrite <- inject_Z_plus. intros H.
  apply (inject_Z_injective (k + k) 0) in H. lia.
Qed.

(** A rounding of the half of a sum is at most a half away from it. *)
Lemma rounded_to_half (sum c : Z) :
  rounded_to (inject_Z sum / 2)%Q c → (sum - 1 ≤ 2 * c ≤ sum + 1)%Z.
Proof.
  intros (_ & Hl & Hu & _).
  assert (inject_Z sum == 2 * (inject_Z sum / 2))%Q as Hs by field.
  set (h := (inject_Z sum / 2)%Q) in *.
  assert (inject_Z (2 * c) < inject_Z (sum + 2))%Q as H1.
  { rewrite inject_Z_mult, inject_Z_plus.
    change (inject_Z 2) with 2%Q. lra. }
  assert (inject_Z sum < inject_Z (2 * c + 2))%Q as H2.
  { rewrite inject_Z_plus, inject_Z_mult.
    change (inject_Z 2) with 2%Q. lra. }
  rewrite <- Zlt_Qlt in H1, H2. lia.
Qed.

Lemma rounded_to_proper (q q' : Q) (c : Z) :
  (q == q')%Q → rounded_to q c → rounded_to q' c.
Proof.
  intros Hq (Hr & Hl & Hu & Hz). rewrite Hq in Hl, Hu.
  split; [exact Hr|]. split; [exact Hl|]. split; [exact Hu|].
  intros z Hz'. apply Hz. by rewrite Hq.
Qed.

Lemma Qfloor_within_one : rounds_within_one Qfloor.
Proof.
  intros q. pose proof (Qfloor_le q). pose proof (Qlt_floor q) as H2.
  rewrite inject_Z_plus in H2. change (inject_Z 1) with 1%Q in H2. split; lra.
Qed.

(** On a graph whose multiplicities are positive the colouring returns as
    soon as the gradient does on every pair of degrees that are not both
    zero. *)
Lemma render_dependency_graph_returns {Color}
    (gradient : Color → Color → Z → Z → result Color)
    (self : GraphRenderer Color) (g : Graph) :
  counted g →
  (∀ start finish i o, (i + o)%Z ≠ 0%Z → ∃ c, gradient start finish i o = Ok c) →
  ∃ attrs, render_dependency_graph gradient self g = Ok attrs.
Proof.
  intros Hc Hgrad. apply color_nodes_returns. intros node _.
  unfold gradient_color. case_decide as Hz; [eauto|].
  apply Hgrad.
  pose proof (in_degree_nonneg g node Hc). pose proof (out_degree_nonneg g node Hc).
  lia.
Qed.

(** ** The data of the structure graph *)

Lemma collect_nodes_spec self base_font_size (l : list Node.t) :
  ∀ d, fold_left (collect_node self base_font_size) l d
  = StructurePlot.mk
      (StructurePlot.center_x d ++ (Node.x <$> l))
      (StructurePlot.center_y d ++ (Node.y <$> l))
      (StructurePlot.width d ++ (Node.width <$> l))
      (StructurePlot.height d ++ (Node.height <$> l))
      (StructurePlot.name d ++ (Node.label <$> l))
      (StructurePlot.type d ++ (Node.type <$> l))
      (StructurePlot.label d ++ (Node.label <$> l))
      (StructurePlot.font_size d ++ ((λ _, base_font_size) <$> l))
      (StructurePlot.color d ++ (structure_color self <$> l))
      (StructurePlot.xs d) (StructurePlot.ys d).
Proof.
  induction l as [|node l IH]; intros d; csimpl.
  - rewrite !app_nil_r. by destruct d.
  - rewrite IH. unfold collect_node; simpl. by rewrite <- !app_assoc.
Qed.

Lemma collect_edges_inner g edge_begin (ends : list string) :
  ∀ d, fold_left (collect_edge g edge_begin) ends d
  = StructurePlot.mk
      (StructurePlot.center_x d) (StructurePlot.center_y d)
      (StructurePlot.width d) (StructurePlot.height d)
      (StructurePlot.name d) (StructurePlot.type d)
      (StructurePlot.label d) (StructurePlot.font_size d)
      (StructurePlot.color d)
      (StructurePlot.xs d
       ++ (edge_xs <$> omap (edge_nodes g) (pair edge_begin <$> ends)))
      (StructurePlot.ys d
       ++ (edge_ys <$> omap (edge_nodes g) (pair edge_begin <$> ends))).
Proof.
  induction ends as [|edge_end ends IH]; intros d; csimpl.
  - rewrite !app_nil_r. by destruct d.
  - rewrite IH. unfold collect_edge, edge_nodes; simpl.
    destruct (get_node g edge_begin) as [b|]; simpl; [|done].
    destruct (get_node g edge_end) as [e|]; simpl; [|done].
    by rewrite <- !app_assoc.
Qed.

Lemma collect_edges_spec g (es : list (string * dict Z)) :
  ∀ d, fold_left (λ d '(edge_begin, edge_ends),
                    fold_left (collect_edge g edge_begin) (keys edge_ends) d)
                 es d
  = StructurePlot.mk
      (StructurePlot.center_x d) (StructurePlot.center_y d)
      (StructurePlot.width d) (StructurePlot.height d)
      (StructurePlot.name d) (StructurePlot.type d)
      (StructurePlot.label d) (StructurePlot.font_size d)
      (StructurePlot.color d)
      (StructurePlot.xs d
       ++ (edge_xs <$> omap (edge_nodes g)
             (es ≫= λ '(source, sinks), pair source <$> keys sinks)))
      (StructurePlot.ys d
       ++ (edge_ys <$> omap (edge_nodes g)
             (es ≫= λ '(source, sinks), pair source <$> keys sinks))).
Proof.
  induction es as [|[s sinks] es IH]; intros d; csimpl.
  - rewrite !app_nil_r. by destruct d.
  - rewrite IH, collect_edges_inner; simpl.
    by rewrite omap_app, !fmap_app, <- !app_assoc.
Qed.

Lemma render_structure_graph_spec layout self g base_width base_height
    base_font_size g' :
  layout g (base_width * base_font_size / Z2Qc 60)%Qc
           (base_height * base_font_size * Z2Qc 4 / Z2Qc 10)%Qc = Ok g' →
  render_structure_graph layout self g base_width base_height base_font_size
  = Ok (StructurePlot.mk
          (Node.x <$> nodes_iter g') (Node.y <$> nodes_iter g')
          (Node.width <$> nodes_iter g') (Node.height <$> nodes_iter g')
          (Node.label <$> nodes_iter g') (Node.type <$> nodes_iter g')
          (Node.label <$> nodes_iter g')
          ((λ _, base_font_size) <$> nodes_iter g')
          (structure_color self <$> nodes_iter g')
          (edge_xs <$> omap (edge_nodes g') (edge_pairs g'))
          (edge_ys <$> omap (edge_nodes g') (edge_pairs g'))).
Proof.
  intros Hlayout. unfold render_structure_graph. rewrite Hlayout, bind_Ok.
  unfold edges_iter. by rewrite collect_edges_spec, collect_nodes_spec.
Qed.

Lemma edge_nodes_is_Some g edge :
  is_Some (edge_nodes g edge)
  ↔ is_Some (get_node g edge.1) ∧ is_Some (get_node g edge.2).
Proof.
  unfold edge_nodes.
  destruct (get_node g edge.1) as [b|], (get_node g edge.2) as [e|]; simpl;
    split; eauto; intros H; exfalso;
    repeat match goal with
           | H : _ ∧ _ |- _ => destruct H
           | H : is_Some None |- _ => by apply is_Some_None in H
           end.
Qed.

Lemma length_omap_filter {A B} (f : A → option B) (l : list A) :
  length (omap f l) = length (filter (λ a, is_Some (f a)) l).
Proof.
  induction l as [|a l IH]; [done|].
  rewrite filter_cons. cbn [omap list_omap].
  destruct (f a) as [b|] eqn:Hfa; case_decide as Hd; simpl.
  - by rewrite IH.
  - destruct Hd. eauto.
  - by destruct Hd.
  - exact IH.
Qed.

(** ** The examples, evaluated *)

Example example_graph_matrix :
  match render_dependency_matrix default_renderer example_graph with
  | Ok (_, plot) =>
      MatrixPlot.x_range plot = ["C"; "B"; "A"]
      ∧ MatrixPlot.matrix plot = [0; 0; 0; 0; 0; 1; 0; 1; 0]%Z
      ∧ MatrixPlot.color plot
        = ["#ffffff"; "#ffffff"; "#ffffff"; "#ffffff"; "#ffffff"; "#428AFF";
           "#ffffff"; "#428AFF"; "#ffffff"]
  | Raise _ => False
  end.
Proof. vm_compute. done. Qed.

Example example_graph_degrees :
  in_degree example_graph "A" = 1%Z ∧ out_degree example_graph "A" = 2%Z
  ∧ in_degree example_graph "C" = 0%Z ∧ out_degree example_graph "C" = 0%Z
  ∧ total_multiplicity example_graph = 3%Z.
Proof. done. Qed.

(** An edge to a name that is not a node makes line 183 raise. *)
Example unknown_sink_raises :
  render_dependency_matrix default_renderer
    (mkGraph [("A", module_node "A")] [("A", [("B", 1%Z)])])
  = Raise AttributeError.
Proof. reflexivity. Qed.

(** The edge of the example tree that leads to no node is left out. *)
Example example_tree_edges :
  match render_structure_graph no_layout default_renderer example_tree
          (Z2Qc 3 / Z2Qc 10)%Qc (Z2Qc 2 / Z2Qc 10)%Qc (Z2Qc 30) with
  | Ok plot =>
      StructurePlot.xs plot = [(None, None); (None, None)]
      ∧ StructurePlot.color plot = ["#377FB4"; "#82CBBA"; "#ECF7B3"; "#ECF7B3"]
  | Raise _ => False
  end.
Proof. vm_compute. done. Qed.

(** With the default colours and the degrees (1, 1) the exact midpoint of
    the green channels is 247/2; rounded to the floor it is 123. *)
Example gradient_of_equal_degrees :
  linear_gradient Qfloor (rgb_of 66 138 255) (rgb_of 242 109 144) 1 1
  = Ok (rgb_of 154 123 199)
  ∧ linear_gradient Qfloor (rgb_of 66 138 255) (rgb_of 242 109 144) 0 0
    = Raise ZeroDivisionError.
Proof. split; reflexivity. Qed.

(** * The claims *)

(** ** The dependency matrix *)

(** C1, as the specification words it, fails: with the edge from A to B of
    multiplicity 2, the cell of (A, B) holds 1, and the cells add up to 2
    while the total multiplicity is 3. *)
Lemma matrix_multiplicity_counterexample :
  ¬ accumulates_multiplicity default_renderer example_graph.
Proof.
  intros H.
  destruct (H _ _ eq_refl) as [Hcell _].
  specialize (Hcell "A" "B" 2%Z eq_refl). vm_compute in Hcell. discriminate.
Qed.

(** C1, amended: on a well-formed graph the builder returns, every edge of
    the graph, whatever its multiplicity, leaves 1 in the cell at
    (index[source], index[destination]), and the cells add up to the number
    of ordered pairs (source, destination) joined by an edge. *)
Theorem matrix_marks_edges (self : GraphRenderer string) (g : Graph) :
  well_formed g →
  ∃ g' plot,
    render_dependency_matrix self g = Ok (g', plot)
    ∧ (∀ s d m, multiplicity g s d = Some m → plot_cell g' plot s d = Some 1%Z)
    ∧ sum_Z (MatrixPlot.matrix plot) = Z.of_nat (length (edge_pairs g)).
Proof.
  intros Hwf.
  destruct (render_dependency_matrix_spec self g Hwf)
    as (g' & m & Hrun & Hlen & Hnd & Hsq & He & Hk & Hn & Hidx & Hcell & Hsum).
  eexists g', _. split; [exact Hrun|]. split; [|exact Hsum].
  intros s d mult Hm. apply multiplicity_edge_pair in Hm as Hsd.
  destruct (edge_pairs_known g s d Hwf Hsd) as [Hs Hd].
  destruct (names_position (reverse (get_all_node_names g)) s) as (a & Ha & Halt).
  { by apply elem_of_reverse. }
  destruct (names_position (reverse (get_all_node_names g)) d) as (b & Hb & Hblt).
  { by apply elem_of_reverse. }
  destruct (proj1 (node_index_Some _ _ _) (Hidx a s Ha)) as (ns & Hns & Hia).
  destruct (proj1 (node_index_Some _ _ _) (Hidx b d Hb)) as (nd & Hnd' & Hib).
  unfold plot_cell. rewrite Hns, Hnd', Hia, Hib, !Nat2Z.id, Hn. simpl.
  rewrite (lookup_join_square _ m a b Hsq) by lia.
  rewrite (Hcell a b s d Ha Hb). by rewrite decide_True.
Qed.

Lemma matrix_marks_edges_witness :
  well_formed example_graph
  ∧ ∃ g' plot,
      render_dependency_matrix default_renderer example_graph = Ok (g', plot)
      ∧ (∀ s d m, multiplicity example_graph s d = Some m →
           plot_cell g' plot s d = Some 1%Z)
      ∧ sum_Z (MatrixPlot.matrix plot)
        = Z.of_nat (length (edge_pairs example_graph)).
Proof.
  assert (well_formed example_graph) as Hwf by decide_closed.
  split; [exact Hwf|].
  exact (matrix_marks_edges default_renderer example_graph Hwf).
Defined.

(** C2: on a well-formed graph with N nodes the builder returns and each of
    the four columns of the data source (importing name, imported name,
    count, colour) has N * N entries, one for each ordered pair of nodes:
    entry [i * N + j] is the pair of the [i]-th and the [j]-th node of the
    ordering. *)
Theorem matrix_has_one_cell_per_pair (self : GraphRenderer string) (g : Graph) :
  well_formed g →
  let N := node_count g in
  let names := reverse (get_all_node_names g) in
  ∃ g' plot,
    render_dependency_matrix self g = Ok (g', plot)
    ∧ length (MatrixPlot.importing_name plot) = N * N
    ∧ length (MatrixPlot.imported_name plot) = N * N
    ∧ length (MatrixPlot.matrix plot) = N * N
    ∧ length (MatrixPlot.color plot) = N * N
    ∧ ∀ i j, i < N → j < N →
        MatrixPlot.importing_name plot !! (i * N + j) = names !! i
        ∧ MatrixPlot.imported_name plot !! (i * N + j) = names !! j.
Proof.
  intros Hwf N names.
  destruct (render_dependency_matrix_spec self g Hwf)
    as (g' & m & Hrun & Hlen & Hnd & Hsq & _).
  destruct (matrix_axes_and_cells self g Hwf)
    as (g2 & plot & Hrun2 & _ & _ & Hcells & _).
  fold N names in Hrun, Hlen, Hsq, Hcells.
  rewrite Hrun in Hrun2. injection Hrun2 as <- <-.
  assert (Forall (λ row : list string, length row = N) (replicate N <$> names))
    as Hrows1.
  { apply Forall_fmap, Forall_forall. intros s _. apply length_replicate. }
  assert (Forall (λ row : list string, length row = N) ((λ _, names) <$> names))
    as Hrows2.
  { apply Forall_fmap, Forall_forall. intros s _. exact Hlen. }
  assert (length (mjoin m) = N * N) as Hm.
  { destruct Hsq as [Hl Hrows]. by rewrite (length_join_rows N), Hl. }
  eexists g', _. split; [exact Hrun|]. simpl. split_and!.
  - by rewrite (length_join_rows N), length_fmap, Hlen.
  - by rewrite (length_join_rows N), length_fmap, Hlen.
  - exact Hm.
  - by rewrite length_fmap.
  - exact Hcells.
Qed.

Lemma matrix_has_one_cell_per_pair_witness :
  well_formed example_graph
  ∧ ∃ g' plot,
      render_dependency_matrix default_renderer example_graph = Ok (g', plot)
      ∧ length (MatrixPlot.importing_name plot) = 3 * 3
      ∧ length (MatrixPlot.imported_name plot) = 3 * 3
      ∧ length (MatrixPlot.matrix plot) = 3 * 3
      ∧ length (MatrixPlot.color plot) = 3 * 3
      ∧ ∀ i j, i < 3 → j < 3 →
          MatrixPlot.importing_name plot !! (i * 3 + j) = ["C"; "B"; "A"] !! i
          ∧ MatrixPlot.imported_name plot !! (i * 3 + j) = ["C"; "B"; "A"] !! j.
Proof.
  assert (well_formed example_graph) as Hwf by decide_closed.
  split; [exact Hwf|].
  exact (matrix_has_one_cell_per_pair default_renderer example_graph Hwf).
Defined.

(** C3: on a well-formed graph the builder returns and the colour of every
    cell follows from its count: the background colour for the count 0, the
    colour [out_color] of the pure importers for every nonzero count. *)
Theorem matrix_color_by_count (self : GraphRenderer string) (g : Graph) :
  well_formed g →
  ∃ g' plot,
    render_dependency_matrix self g = Ok (g', plot)
    ∧ length (MatrixPlot.color plot) = length (MatrixPlot.matrix plot)
    ∧ ∀ k count, MatrixPlot.matrix plot !! k = Some count →
        (count = 0%Z → MatrixPlot.color plot !! k = Some "#ffffff")
        ∧ (count ≠ 0%Z → MatrixPlot.color plot !! k = Some (out_color self)).
Proof.
  intros Hwf.
  destruct (render_dependency_matrix_spec self g Hwf) as (g' & m & Hrun & _).
  eexists g', _. split; [exact Hrun|]. simpl. split; [apply length_fmap|].
  intros k count Hk. rewrite list_lookup_fmap, Hk; simpl. unfold cell_color.
  split; intros Hc.
  - by rewrite decide_True.
  - by rewrite decide_False.
Qed.

Lemma matrix_color_by_count_witness :
  well_formed example_graph
  ∧ ∃ g' plot,
      render_dependency_matrix default_renderer example_graph = Ok (g', plot)
      ∧ length (MatrixPlot.color plot) = length (MatrixPlot.matrix plot)
      ∧ ∀ k count, MatrixPlot.matrix plot !! k = Some count →
          (count = 0%Z → MatrixPlot.color plot !! k = Some "#ffffff")
          ∧ (count ≠ 0%Z → MatrixPlot.color plot !! k = Some "#428AFF").
Proof.
  assert (well_formed example_graph) as Hwf by decide_closed.
  split; [exact Hwf|].
  exact (matrix_color_by_count default_renderer example_graph Hwf).
Defined.

(** C4: the branch of the count -1 is never taken.  On a well-formed graph
    the builder returns, and when the colours are assigned no element of
    the matrix is negative, so that none is -1 and the colours do not depend
    on [in_color]. *)
Theorem matrix_never_negative (self : GraphRenderer string) (g : Graph) :
  well_formed g →
  ∃ g' plot,
    render_dependency_matrix self g = Ok (g', plot)
    ∧ Forall (λ count, 0 ≤ count)%Z (MatrixPlot.matrix plot)
    ∧ ((-1)%Z ∉ MatrixPlot.matrix plot)
    ∧ ∀ other : string,
        render_dependency_matrix
          (mkRenderer other (out_color self) (dis_color self)
                      (root_dir_color self) (dir_color self) (file_color self))
          g
        = Ok (g', plot).
Proof.
  intros Hwf.
  destruct (render_dependency_matrix_spec self g Hwf) as (g' & m & Hrun & _).
  pose proof (render_dependency_matrix_nonneg _ _ _ _ Hrun) as Hpos.
  eexists g', _. split; [exact Hrun|]. split; [exact Hpos|]. split.
  - intros Hin. rewrite Forall_forall in Hpos. specialize (Hpos _ Hin). lia.
  - intros other.
    rewrite render_dependency_matrix_unfold in Hrun |- *.
    destruct (assign_indices g _) as [g1|e]; [|done].
    rewrite bind_Ok in Hrun |- *. revert Hrun Hpos. unfold matrix_data.
    destruct (name_columns _) as [importing imported].
    destruct (accumulate g1 _) as [m1|e] eqn:Hacc; [|done].
    rewrite !bind_Ok. intros Hrun _. rewrite <- Hrun. do 3 f_equal.
    apply assign_colors_nonneg; [|done].
    apply Forall_mjoin. eapply accumulate_nonneg;
      [apply empty_matrix_nonneg | exact Hacc].
Qed.

Lemma matrix_never_negative_witness :
  well_formed example_graph
  ∧ ∃ g' plot,
      render_dependency_matrix default_renderer example_graph = Ok (g', plot)
      ∧ Forall (λ count, 0 ≤ count)%Z (MatrixPlot.matrix plot)
      ∧ ((-1)%Z ∉ MatrixPlot.matrix plot)
      ∧ ∀ other : string,
          render_dependency_matrix
            (mkRenderer other "#428AFF" "#FCB16F" "#377FB4" "#82CBBA" "#ECF7B3")
            example_graph
          = Ok (g', plot).
Proof.
  assert (well_formed example_graph) as Hwf by decide_closed.
  split; [exact Hwf|].
  exact (matrix_never_negative default_renderer example_graph Hwf).
Defined.

(** C7: one ordering, the reverse of the names of the graph, is used for
    both axes of the plot and for the rows and the columns of the cells, and
    when the call returns the index of every node of the graph is its
    position, from 0, in this ordering. *)
Theorem matrix_ordering_fixed_once (self : GraphRenderer string) (g : Graph) :
  well_formed g →
  let N := node_count g in
  let names := reverse (get_all_node_names g) in
  ∃ g' plot,
    render_dependency_matrix self g = Ok (g', plot)
    ∧ MatrixPlot.x_range plot = names
    ∧ MatrixPlot.y_range plot = names
    ∧ (∀ i j, i < N → j < N →
         MatrixPlot.importing_name plot !! (i * N + j) = names !! i
         ∧ MatrixPlot.imported_name plot !! (i * N + j) = names !! j)
    ∧ get_all_node_names g' = get_all_node_names g
    ∧ (∀ (k : nat) name, names !! k = Some name →
         ∃ node, get_node g' name = Some node
                 ∧ Node.index node = Some (Z.of_nat k))
    ∧ (∀ name node, get_node g' name = Some node →
         ∃ k : nat, names !! k = Some name
                    ∧ Node.index node = Some (Z.of_nat k)).
Proof.
  intros Hwf N names.
  destruct (matrix_axes_and_cells self g Hwf)
    as (g' & plot & Hrun & Hx & Hy & Hcells & Hk & Hidx).
  exists g', plot. split_and!; try done.
  - intros k name Hname. by apply node_index_Some, Hidx.
  - intros name node Hnode.
    destruct (names_position names name) as (k & Hname & _).
    { unfold names. rewrite elem_of_reverse, <- Hk.
      apply dict_get_is_Some. by exists node. }
    exists k. split; [done|].
    apply (Hidx k name), node_index_Some in Hname as (node' & Hnode' & Hi).
    unfold get_node in *. congruence.
Qed.

Lemma matrix_ordering_fixed_once_witness :
  well_formed example_graph
  ∧ ∃ g' plot,
      render_dependency_matrix default_renderer example_graph = Ok (g', plot)
      ∧ MatrixPlot.x_range plot = ["C"; "B"; "A"]
      ∧ MatrixPlot.y_range plot = ["C"; "B"; "A"]
      ∧ (∀ i j, i < 3 → j < 3 →
           MatrixPlot.importing_name plot !! (i * 3 + j) = ["C"; "B"; "A"] !! i
           ∧ MatrixPlot.imported_name plot !! (i * 3 + j) = ["C"; "B"; "A"] !! j)
      ∧ get_all_node_names g' = ["A"; "B"; "C"]
      ∧ (∀ (k : nat) name, ["C"; "B"; "A"] !! k = Some name →
           ∃ node, get_node g' name = Some node
                   ∧ Node.index node = Some (Z.of_nat k))
      ∧ (∀ name node, get_node g' name = Some node →
           ∃ k : nat, ["C"; "B"; "A"] !! k = Some name
                      ∧ Node.index node = Some (Z.of_nat k)).
Proof.
  assert (well_formed example_graph) as Hwf by decide_closed.
  split; [exact Hwf|].
  exact (matrix_ordering_fixed_once default_renderer example_graph Hwf).
Defined.

(** C8: a second run over the graph the first run was given, with the same
    colours, returns the same plot, and leaves the graph as the first run
    left it. *)
Theorem matrix_runs_agree (self : GraphRenderer string) (g : Graph) :
  well_formed g →
  ∃ g' plot,
    render_dependency_matrix self g = Ok (g', plot)
    ∧ render_dependency_matrix self g' = Ok (g', plot).
Proof.
  intros Hwf.
  destruct (render_dependency_matrix_spec self g Hwf)
    as (g' & m & Hrun & Hlen & Hnd & Hsq & He & Hk & Hn & Hidx & _).
  eexists g', _. split; [exact Hrun|].
  rewrite render_dependency_matrix_unfold in Hrun |- *.
  rewrite Hk, Hn. unfold assign_indices at 1, enumerate.
  rewrite assign_from_fixed, bind_Ok.
  - destruct (assign_indices g _) as [g1|e]; [|done].
    rewrite bind_Ok in Hrun.
    pose proof (matrix_data_graph _ _ _ _ _ _ Hrun) as ->. exact Hrun.
  - intros k name Hname. by rewrite (Hidx k name Hname).
Qed.

Lemma matrix_runs_agree_witness :
  well_formed example_graph
  ∧ ∃ g' plot,
      render_dependency_matrix default_renderer example_graph = Ok (g', plot)
      ∧ render_dependency_matrix default_renderer g' = Ok (g', plot).
Proof.
  assert (well_formed example_graph) as Hwf by decide_closed.
  split; [exact Hwf|].
  exact (matrix_runs_agree default_renderer example_graph Hwf).
Defined.

(** ** The dependency graph *)

(** C5: a node with in-degree 0 and out-degree 0 gets the colour
    [dis_color], whatever the colour type, the gradient and the two endpoint
    colours are; the colouring returns on a graph with positive
    multiplicities as soon as the gradient returns on degrees that are not
    both zero. *)
Theorem disconnected_node_color {Color}
    (gradient : Color → Color → Z → Z → result Color)
    (self : GraphRenderer Color) (g : Graph) (node : string) :
  counted g →
  (∀ start finish i o, (i + o)%Z ≠ 0%Z → ∃ c, gradient start finish i o = Ok c) →
  node ∈ get_all_node_names g →
  in_degree g node = 0%Z →
  out_degree g node = 0%Z →
  ∃ attrs,
    render_dependency_graph gradient self g = Ok attrs
    ∧ node_color attrs !! node = Some (dis_color self).
Proof.
  intros Hc Hgrad Hnode Hin Hout.
  destruct (render_dependency_graph_returns gradient self g Hc Hgrad)
    as [attrs Hrun].
  exists attrs. split; [done|].
  destruct (color_nodes_spec gradient self g _ _ _ Hrun node) as [Hspec _].
  destruct (Hspec Hnode) as (c & Hcolor & Hlookup).
  unfold gradient_color in Hcolor. rewrite decide_True in Hcolor by done.
  congruence.
Qed.

Lemma disconnected_node_color_witness :
  counted example_graph
  ∧ "C" ∈ get_all_node_names example_graph
  ∧ in_degree example_graph "C" = 0%Z
  ∧ out_degree example_graph "C" = 0%Z
  ∧ ∃ attrs,
      render_dependency_graph (linear_gradient Qfloor) default_rgb_renderer example_graph
      = Ok attrs
      ∧ node_color attrs !! "C" = Some (rgb_of 252 177 111).
Proof.
  assert (counted example_graph) as Hc by decide_closed.
  assert ("C" ∈ get_all_node_names example_graph) as Hnode by decide_closed.
  split_and!; [exact Hc | exact Hnode | reflexivity | reflexivity |].
  apply (disconnected_node_color (linear_gradient Qfloor) default_rgb_renderer
           example_graph "C" Hc); [|exact Hnode|reflexivity|reflexivity].
  intros start finish i o Hne. eexists. by apply linear_gradient_returns.
Defined.

(** C6, as the specification words it, fails: with the default colours a
    node of in-degree 1 and out-degree 1 would need the green channel
    247/2, which no rounding gives, a channel being an integer. *)
Lemma exact_interpolation_counterexample :
  ¬ ∃ round attrs c,
      render_dependency_graph (linear_gradient round) default_rgb_renderer
        two_cycle = Ok attrs
      ∧ node_color attrs !! "A" = Some c
      ∧ exactly_interpolated default_rgb_renderer
          (in_degree two_cycle "A") (out_degree two_cycle "A") c.
Proof.
  intros (round & attrs & c & _ & _ & _ & Hgreen & _).
  change (inject_Z (green c) == interpolate 138 109 1 1)%Q in Hgreen.
  assert (interpolate 138 109 1 1 == 247 # 2)%Q as Hq by reflexivity.
  rewrite Hq in Hgreen. unfold Qeq in Hgreen. simpl in Hgreen. lia.
Qed.

(** C6, amended: on a graph with positive multiplicities and for endpoint
    colours with channels in 0..255, a node whose degrees are not both zero
    gets, on every channel, the interpolation
    [out_channel + (in_channel - out_channel) * (in_degree / (in_degree +
    out_degree))] rounded to a channel: an integer of 0..255 less than 1
    away from it, and the interpolation itself when that is an integer.
    The colour is exactly that of the pure importers when the in-degree is
    0 and exactly that of the purely imported when the out-degree is 0;
    when the degrees are equal, twice a channel is at most 1 away from the
    sum of the two endpoint channels. *)
Theorem node_color_rounds_interpolation (round : Q → Z)
    (self : GraphRenderer rgb) (g : Graph) (node : string) :
  rounds_within_one round →
  counted g →
  valid_color (out_color self) → valid_color (in_color self) →
  node ∈ get_all_node_names g →
  (0 < in_degree g node + out_degree g node)%Z →
  ∃ attrs c,
    render_dependency_graph (linear_gradient round) self g = Ok attrs
    ∧ node_color attrs !! node = Some c
    ∧ rounded_to (interpolate (red (out_color self)) (red (in_color self))
                              (in_degree g node) (out_degree g node)) (red c)
    ∧ rounded_to (interpolate (green (out_color self)) (green (in_color self))
                              (in_degree g node) (out_degree g node)) (green c)
    ∧ rounded_to (interpolate (blue (out_color self)) (blue (in_color self))
                              (in_degree g node) (out_degree g node)) (blue c)
    ∧ (in_degree g node = 0%Z → c = out_color self)
    ∧ (out_degree g node = 0%Z → c = in_color self)
    ∧ (in_degree g node = out_degree g node →
         (red (out_color self) + red (in_color self) - 1 ≤ 2 * red c
          ≤ red (out_color self) + red (in_color self) + 1)%Z
         ∧ (green (out_color self) + green (in_color self) - 1 ≤ 2 * green c
            ≤ green (out_color self) + green (in_color self) + 1)%Z
         ∧ (blue (out_color self) + blue (in_color self) - 1 ≤ 2 * blue c
            ≤ blue (out_color self) + blue (in_color self) + 1)%Z).
Proof.
  intros Hround Hc (Hor & Hog & Hob) (Hir & Hig & Hib) Hnode Hpos.
  destruct (render_dependency_graph_returns (linear_gradient round) self g Hc)
    as [attrs Hrun].
  { intros start finish i o Hne. eexists. by apply linear_gradient_returns. }
  destruct (color_nodes_spec (linear_gradient round) self g _ _ _ Hrun node)
    as [Hspec _].
  destruct (Hspec Hnode) as (c & Hcolor & Hlookup).
  unfold gradient_color in Hcolor.
  rewrite decide_False in Hcolor by lia.
  rewrite linear_gradient_returns in Hcolor by lia.
  injection Hcolor as <-.
  pose proof (in_degree_nonneg g node Hc) as Hin0.
  pose proof (out_degree_nonneg g node Hc) as Hout0.
  pose proof (mix_channel_rounded round _ _ _ _ Hround Hor Hir Hin0 Hout0 Hpos)
    as Hred.
  pose proof (mix_channel_rounded round _ _ _ _ Hround Hog Hig Hin0 Hout0 Hpos)
    as Hgreen.
  pose proof (mix_channel_rounded round _ _ _ _ Hround Hob Hib Hin0 Hout0 Hpos)
    as Hblue.
  exists attrs. eexists. split; [exact Hrun|]. split; [exact Hlookup|].
  cbn [red green blue].
  split; [exact Hred|]. split; [exact Hgreen|]. split; [exact Hblue|].
  split_and!.
  - intros Hin. rewrite Hin in Hred, Hgreen, Hblue.
    destruct Hred as (_ & _ & _ & Hr), Hgreen as (_ & _ & _ & Hg),
      Hblue as (_ & _ & _ & Hb).
    rewrite Hin. destruct (out_color self) as [r0 g0 b0]; simpl in *.
    f_equal; [apply Hr | apply Hg | apply Hb]; apply interpolate_pure_importer.
  - intros Hout. rewrite Hout in Hred, Hgreen, Hblue, Hpos.
    destruct Hred as (_ & _ & _ & Hr), Hgreen as (_ & _ & _ & Hg),
      Hblue as (_ & _ & _ & Hb).
    rewrite Hout. destruct (in_color self) as [r0 g0 b0]; simpl in *.
    f_equal; [apply Hr | apply Hg | apply Hb];
      apply interpolate_pure_imported; lia.
  - intros Heq. rewrite <- Heq in Hred, Hgreen, Hblue, Hpos |- *.
    split; [|split]; apply rounded_to_half;
      (eapply rounded_to_proper;
       [apply (interpolate_midpoint _ _ (in_degree g node)); lia
       |assumption]).
Qed.

Lemma node_color_rounds_interpolation_witness :
  rounds_within_one Qfloor
  ∧ counted two_cycle
  ∧ valid_color (out_color default_rgb_renderer)
  ∧ valid_color (in_color default_rgb_renderer)
  ∧ "A" ∈ get_all_node_names two_cycle
  ∧ (0 < in_degree two_cycle "A" + out_degree two_cycle "A")%Z
  ∧ ∃ attrs c,
      render_dependency_graph (linear_gradient Qfloor) default_rgb_renderer
        two_cycle = Ok attrs
      ∧ node_color attrs !! "A" = Some c
      ∧ rounded_to (interpolate 66 242 1 1) (red c)
      ∧ rounded_to (interpolate 138 109 1 1) (green c)
      ∧ rounded_to (interpolate 255 144 1 1) (blue c)
      ∧ (138 + 109 - 1 ≤ 2 * green c ≤ 138 + 109 + 1)%Z.
Proof.
  assert (counted two_cycle) as Hc by decide_closed.
  assert (valid_color (out_color default_rgb_renderer)) as Hout by decide_closed.
  assert (valid_color (in_color default_rgb_renderer)) as Hin by decide_closed.
  assert ("A" ∈ get_all_node_names two_cycle) as Hnode by decide_closed.
  assert (0 < in_degree two_cycle "A" + out_degree two_cycle "A")%Z
    as Hpos by reflexivity.
  split_and!; [exact Qfloor_within_one | exact Hc | exact Hout | exact Hin
              | exact Hnode | exact Hpos |].
  destruct (node_color_rounds_interpolation Qfloor default_rgb_renderer
              two_cycle "A" Qfloor_within_one Hc Hout Hin Hnode Hpos)
    as (attrs & c & Hrun & Hlookup & Hr & Hg & Hb & _ & _ & Hmid).
  destruct (Hmid eq_refl) as (_ & Hgm & _).
  exists attrs, c.
  split; [exact Hrun|]. split; [exact Hlookup|]. split; [exact Hr|].
  split; [exact Hg|]. split; [exact Hb|]. exact Hgm.
Defined.

(** ** The structure graph *)

(** C9: when the layout returns, the renderer returns as well, and the
    edges contribute, in their order, one pair of x coordinates and one pair
    of y coordinates for each edge whose two names are names of nodes; an
    edge with a missing end contributes nothing to either column. *)
Theorem structure_edges_need_both_ends
    (layout : Graph → Qc → Qc → result Graph) (self : GraphRenderer string)
    (g : Graph) (base_width base_height base_font_size : Qc) (g' : Graph) :
  layout g (base_width * base_font_size / Z2Qc 60)%Qc
           (base_height * base_font_size * Z2Qc 4 / Z2Qc 10)%Qc = Ok g' →
  ∃ plot,
    render_structure_graph layout self g base_width base_height base_font_size
    = Ok plot
    ∧ StructurePlot.xs plot = edge_xs <$> omap (edge_nodes g') (edge_pairs g')
    ∧ StructurePlot.ys plot = edge_ys <$> omap (edge_nodes g') (edge_pairs g')
    ∧ (∀ edge, is_Some (edge_nodes g' edge)
               ↔ is_Some (get_node g' edge.1) ∧ is_Some (get_node g' edge.2))
    ∧ length (StructurePlot.xs plot)
      = length (filter (λ edge, is_Some (get_node g' edge.1)
                                ∧ is_Some (get_node g' edge.2))
                       (edge_pairs g'))
    ∧ length (StructurePlot.ys plot) = length (StructurePlot.xs plot).
Proof.
  intros Hlayout. eexists. split.
  { by apply render_structure_graph_spec. }
  simpl. split_and!; try done.
  - apply edge_nodes_is_Some.
  - rewrite length_fmap, length_omap_filter. f_equal.
    apply list_filter_iff. intros edge. apply edge_nodes_is_Some.
  - by rewrite !length_fmap.
Qed.

Lemma structure_edges_need_both_ends_witness :
  no_layout example_tree
    (Z2Qc 3 / Z2Qc 10 * Z2Qc 30 / Z2Qc 60)%Qc
    (Z2Qc 2 / Z2Qc 10 * Z2Qc 30 * Z2Qc 4 / Z2Qc 10)%Qc = Ok example_tree
  ∧ ∃ plot,
      render_structure_graph no_layout default_renderer example_tree
        (Z2Qc 3 / Z2Qc 10)%Qc (Z2Qc 2 / Z2Qc 10)%Qc (Z2Qc 30) = Ok plot
      ∧ StructurePlot.xs plot
        = edge_xs <$> omap (edge_nodes example_tree) (edge_pairs example_tree)
      ∧ StructurePlot.ys plot
        = edge_ys <$> omap (edge_nodes example_tree) (edge_pairs example_tree)
      ∧ length (StructurePlot.xs plot) = 2
      ∧ length (edge_pairs example_tree) = 3.
Proof.
  split; [reflexivity|].
  destruct (structure_edges_need_both_ends no_layout default_renderer
              example_tree (Z2Qc 3 / Z2Qc 10)%Qc (Z2Qc 2 / Z2Qc 10)%Qc
              (Z2Qc 30) example_tree eq_refl)
    as (plot & Hrun & Hxs & Hys & _ & Hlen & _).
  exists plot. split_and!; [exact Hrun | exact Hxs | exact Hys | | reflexivity].
  rewrite Hlen. reflexivity.
Defined.

(** C10: when the layout returns, the renderer returns as well, and the
    colour of every node follows from its type: [root_dir_color] for the
    type root, [dir_color] for the type directory, and [file_color] for
    every other type, whatever string it is.  When the three colours
    differ, the colour tells the case. *)
Theorem structure_color_by_type
    (layout : Graph → Qc → Qc → result Graph) (self : GraphRenderer string)
    (g : Graph) (base_width base_height base_font_size : Qc) (g' : Graph) :
  layout g (base_width * base_font_size / Z2Qc 60)%Qc
           (base_height * base_font_size * Z2Qc 4 / Z2Qc 10)%Qc = Ok g' →
  ∃ plot,
    render_structure_graph layout self g base_width base_height base_font_size
    = Ok plot
    ∧ length (StructurePlot.color plot) = length (nodes_iter g')
    ∧ ∀ k node, nodes_iter g' !! k = Some node →
        ∃ c, StructurePlot.color plot !! k = Some c
          ∧ StructurePlot.type plot !! k = Some (Node.type node)
          ∧ (Node.type node = "root" → c = root_dir_color self)
          ∧ (Node.type node = "directory" → c = dir_color self)
          ∧ (Node.type node ≠ "root" → Node.type node ≠ "directory" →
               c = file_color self)
          ∧ (root_dir_color self ≠ dir_color self →
             root_dir_color self ≠ file_color self →
             dir_color self ≠ file_color self →
               (c = root_dir_color self ↔ Node.type node = "root")
               ∧ (c = dir_color self ↔ Node.type node = "directory")).
Proof.
  intros Hlayout. eexists. split.
  { by apply render_structure_graph_spec. }
  simpl. split; [by rewrite length_fmap|].
  intros k node Hk. exists (structure_color self node).
  rewrite !list_lookup_fmap, Hk; simpl. unfold structure_color.
  split_and!; try done.
  - intros ->. by rewrite decide_True.
  - intros ->. by rewrite decide_False, decide_True.
  - intros Hr Hd. by rewrite !decide_False.
  - intros H1 H2 H3. repeat case_decide; split; split; congruence.
Qed.

Lemma structure_color_by_type_witness :
  no_layout example_tree
    (Z2Qc 3 / Z2Qc 10 * Z2Qc 30 / Z2Qc 60)%Qc
    (Z2Qc 2 / Z2Qc 10 * Z2Qc 30 * Z2Qc 4 / Z2Qc 10)%Qc = Ok example_tree
  ∧ ∃ plot,
      render_structure_graph no_layout default_renderer example_tree
        (Z2Qc 3 / Z2Qc 10)%Qc (Z2Qc 2 / Z2Qc 10)%Qc (Z2Qc 30) = Ok plot
      ∧ length (StructurePlot.color plot) = 4
      ∧ ∀ k node, nodes_iter example_tree !! k = Some node →
          ∃ c, StructurePlot.color plot !! k = Some c
            ∧ (Node.type node = "root" → c = "#377FB4")
            ∧ (Node.type node = "directory" → c = "#82CBBA")
            ∧ (Node.type node ≠ "root" → Node.type node ≠ "directory" →
                 c = "#ECF7B3").
Proof.
  split; [reflexivity|].
  destruct (structure_color_by_type no_layout default_renderer
              example_tree (Z2Qc 3 / Z2Qc 10)%Qc (Z2Qc 2 / Z2Qc 10)%Qc
              (Z2Qc 30) example_tree eq_refl)
    as (plot & Hrun & Hlen & Hcolor).
  exists plot. split_and!; [exact Hrun | exact Hlen |].
  intros k node Hk.
  destruct (Hcolor k node Hk) as (c & Hc & _ & Hroot & Hdir & Hfile & _).
  exists c. split_and!; assumption.
Defined.

(** * Further properties *)

(** ** When the dependency matrix is built and when it is not *)

Lemma node_index_unknown g name :
  name ∉ keys (nodes g) → node_index g name = Raise AttributeError.
Proof.
  intros Hname. unfold node_index, get_node.
  destruct (dict_get (nodes g) name) as [n|] eqn:Hn; [|done].
  destruct Hname. apply dict_get_is_Some. eauto.
Qed.

Section accumulation_errors.
Variable g : Graph.
Variable names : list string.
Hypothesis names_index : ∀ (k : nat) name,
  names !! k = Some name → node_index g name = Ok (Some (Z.of_nat k)).
Hypothesis names_nodes : ∀ name, name ∈ names ↔ name ∈ keys (nodes g).

Lemma accumulate_pairs_returns (ps : list (string * string)) :
  ∀ m, (∀ s d, (s, d) ∈ ps → s ∈ names ∧ d ∈ names) →
    square (length names) m →
    ∃ m', for_each (λ m '(s, d), increment g m s d) ps m = Ok m'
          ∧ square (length names) m'.
Proof.
  induction ps as [|[s0 d0] ps IH]; intros m Hin Hsq; [by exists m|].
  destruct (Hin s0 d0) as [Hs0 Hd0]; [left|].
  destruct (names_position names s0 Hs0) as (a & Ha & Halt).
  destruct (names_position names d0 Hd0) as (b & Hb & Hblt).
  destruct (increment_spec _ g m s0 d0 a b Hsq Halt Hblt
              (names_index _ _ Ha) (names_index _ _ Hb))
    as (m1 & Hinc & Hsq1 & _).
  destruct (IH m1) as (m' & Hrun & Hsq'); [|done|].
  { intros s d Hsd. apply Hin. by right. }
  exists m'. split; [|done]. simpl. by rewrite Hinc, bind_Ok.
Qed.

Lemma increment_unknown_end m s d :
  square (length names) m → s ∉ names ∨ d ∉ names →
  increment g m s d = Raise AttributeError.
Proof.
  intros Hsq Hbad. unfold increment.
  destruct (decide (s ∈ names)) as [Hs|Hs].
  - destruct Hbad as [?|Hd]; [done|].
    destruct (names_position names s Hs) as (a & Ha & Halt).
    destruct (square_lookup _ m a Hsq Halt) as (row & Hrow & _).
    rewrite (names_index _ _ Ha), bind_Ok, (subscript_nat _ _ _ Hrow), bind_Ok.
    rewrite (node_index_unknown g d) by (by rewrite <- names_nodes).
    reflexivity.
  - rewrite (node_index_unknown g s) by (by rewrite <- names_nodes).
    reflexivity.
Qed.

Lemma accumulate_pairs_raises (ps : list (string * string)) :
  ∀ m, square (length names) m →
    (∃ s d, (s, d) ∈ ps ∧ (s ∉ names ∨ d ∉ names)) →
    for_each (λ m '(s, d), increment g m s d) ps m = Raise AttributeError.
Proof.
  induction ps as [|[s0 d0] ps IH]; intros m Hsq (s & d & Hsd & Hbad).
  { by apply elem_of_nil in Hsd. }
  simpl. destruct (decide (s0 ∈ names ∧ d0 ∈ names)) as [[Hs0 Hd0]|Hbad0].
  - destruct (names_position names s0 Hs0) as (a & Ha & Halt).
    destruct (names_position names d0 Hd0) as (b & Hb & Hblt).
    destruct (increment_spec _ g m s0 d0 a b Hsq Halt Hblt
                (names_index _ _ Ha) (names_index _ _ Hb))
      as (m1 & Hinc & Hsq1 & _).
    rewrite Hinc, bind_Ok. apply IH; [done|].
    exists s, d. split; [|done].
    apply elem_of_cons in Hsd as [[= -> ->]|?]; [|done].
    by destruct Hbad.
  - rewrite increment_unknown_end; [done..|].
    apply not_and_l in Hbad0. exact Hbad0.
Qed.
End accumulation_errors.

Lemma ends_known_Forall g :
  ends_known g
  ↔ Forall (λ p : string * string,
              p.1 ∈ get_all_node_names g ∧ p.2 ∈ get_all_node_names g)
           (edge_pairs g).
Proof.
  unfold ends_known. rewrite Forall_forall. split.
  - intros H [s d] Hsd. by apply H.
  - intros H s d Hsd. by apply (H (s, d)).
Qed.

Lemma not_ends_known g :
  ¬ ends_known g →
  ∃ s d, (s, d) ∈ edge_pairs g
         ∧ (s ∉ get_all_node_names g ∨ d ∉ get_all_node_names g).
Proof.
  rewrite ends_known_Forall. intros H%not_Forall_Exists; [|apply _].
  apply Exists_exists in H as ([s d] & Hsd & Hbad). simpl in Hbad.
  exists s, d. split; [done|]. by apply not_and_l in Hbad.
Qed.

(** With node names that occur once, lines 168-169 return and leave the
    edges and the names as they were. *)
Lemma assign_indices_unique g :
  NoDup (get_all_node_names g) →
  let names := reverse (get_all_node_names g) in
  ∃ g', assign_indices g names = Ok g'
        ∧ edges g' = edges g
        ∧ keys (nodes g') = keys (nodes g)
        ∧ length names = node_count g
        ∧ NoDup names
        ∧ (∀ (k : nat) name, names !! k = Some name →
             node_index g' name = Ok (Some (Z.of_nat k)))
        ∧ (∀ name, name ∈ names ↔ name ∈ keys (nodes g')).
Proof.
  intros Hnodes names.
  assert (NoDup names) as Hnd.
  { unfold names. by rewrite reverse_Permutation. }
  destruct (assign_from_spec names g 0) as (g' & Hrun & He & Hk & Hl & Hidx & _).
  { intros name Hname. unfold names in Hname.
    by rewrite elem_of_reverse in Hname. }
  { done. }
  exists g'. split_and!.
  - exact Hrun.
  - exact He.
  - exact Hk.
  - unfold names, get_all_node_names, node_count, keys.
    by rewrite length_reverse, length_fmap.
  - exact Hnd.
  - intros k name Hname. by rewrite (Hidx k name Hname).
  - intros name. unfold names, get_all_node_names.
    by rewrite elem_of_reverse, Hk.
Qed.

(** X1: with node names that occur once, the matrix is built exactly when
    both ends of every edge are nodes of the graph; otherwise line 183
    raises [AttributeError], and no other exception is ever raised. *)
Theorem matrix_built_iff_ends_known (self : GraphRenderer string) (g : Graph) :
  NoDup (get_all_node_names g) →
  ((∃ g' plot, render_dependency_matrix self g = Ok (g', plot)) ↔ ends_known g)
  ∧ (¬ ends_known g → render_dependency_matrix self g = Raise AttributeError).
Proof.
  intros Hnodes.
  destruct (assign_indices_unique g Hnodes)
    as (g' & Hrun & He & Hk & Hlen & Hnd & Hidx & Hnames).
  assert (edge_pairs g' = edge_pairs g) as Hpairs
    by (unfold edge_pairs; by rewrite He).
  assert (¬ ends_known g →
          render_dependency_matrix self g = Raise AttributeError) as Hraise.
  { intros (s & d & Hsd & Hbad)%not_ends_known.
    rewrite render_dependency_matrix_unfold, Hrun, bind_Ok. unfold matrix_data.
    destruct (name_columns _) as [importing imported].
    rewrite accumulate_edge_pairs, Hpairs.
    rewrite (accumulate_pairs_raises g' _ Hidx Hnames); [done| |].
    - rewrite Hlen. apply square_empty_matrix.
    - exists s, d. split; [done|]. by rewrite !elem_of_reverse. }
  split; [|exact Hraise]. split.
  - intros (g1 & plot & Hok).
    destruct (decide (Forall (λ p : string * string,
                p.1 ∈ get_all_node_names g ∧ p.2 ∈ get_all_node_names g)
                (edge_pairs g))) as [H|H].
    + by apply ends_known_Forall.
    + rewrite <- ends_known_Forall in H. rewrite (Hraise H) in Hok. done.
  - intros Hknown.
    destruct (accumulate_pairs_returns g' _ Hidx (edge_pairs g)
                (empty_matrix (node_count g))) as (m & Hacc & _).
    { intros s d Hsd. destruct (Hknown s d Hsd). by rewrite !elem_of_reverse. }
    { rewrite Hlen. apply square_empty_matrix. }
    rewrite render_dependency_matrix_unfold, Hrun, bind_Ok. unfold matrix_data.
    destruct (name_columns _) as [importing imported].
    rewrite accumulate_edge_pairs, Hpairs, Hacc, bind_Ok. eauto.
Qed.

Lemma matrix_built_iff_ends_known_witness :
  NoDup (get_all_node_names (mkGraph [("A", module_node "A")]
                                     [("A", [("B", 1%Z)])]))
  ∧ render_dependency_matrix default_renderer
      (mkGraph [("A", module_node "A")] [("A", [("B", 1%Z)])])
    = Raise AttributeError.
Proof.
  assert (NoDup (get_all_node_names
            (mkGraph [("A", module_node "A")] [("A", [("B", 1%Z)])])))
    as Hnd by decide_closed.
  split; [exact Hnd|].
  apply (matrix_built_iff_ends_known default_renderer _ Hnd).
  intros H. destruct (H "A" "B") as [_ HB]; [decide_closed|].
  revert HB. decide_closed.
Defined.

(** ** The cells of the dependency matrix *)

Lemma flat_position (N k : nat) :
  k < N * N → ∃ i j, k = i * N + j ∧ i < N ∧ j < N.
Proof.
  intros Hk. assert (N ≠ 0) as HN by lia.
  exists (k / N), (k mod N). split_and!.
  - pose proof (Nat.div_mod_eq k N). lia.
  - apply Nat.Div0.div_lt_upper_bound. lia.
  - by apply Nat.mod_upper_bound.
Qed.

Lemma lookup_name_columns (names : list string) (i j : nat) :
  i < length names → j < length names →
  mjoin (replicate (length names) <$> names) !! (i * length names + j)
  = names !! i
  ∧ mjoin ((λ _, names) <$> names) !! (i * length names + j) = names !! j.
Proof.
  intros Hi Hj.
  destruct (lookup_lt_is_Some_2 names i Hi) as [s Hs].
  split.
  - rewrite (lookup_join_rows (length names)); [|by apply Forall_fmap,
      Forall_forall; intros ? _; apply length_replicate|done].
    rewrite list_lookup_fmap, Hs; simpl. by apply lookup_replicate_2.
  - rewrite (lookup_join_rows (length names)); [|by apply Forall_fmap,
      Forall_forall; intros ? _|done].
    by rewrite list_lookup_fmap, Hs.
Qed.

(** X2: every row of the data source tells whether its pair of nodes is an
    edge: the count beside an importing and an imported name is 1 when the
    graph has an edge from the first to the second, and 0 otherwise. *)
Theorem matrix_cell_tells_edge (self : GraphRenderer string) (g : Graph) :
  well_formed g →
  ∃ g' plot,
    render_dependency_matrix self g = Ok (g', plot)
    ∧ ∀ k s d,
        MatrixPlot.importing_name plot !! k = Some s →
        MatrixPlot.imported_name plot !! k = Some d →
        MatrixPlot.matrix plot !! k
        = Some (if decide ((s, d) ∈ edge_pairs g) then 1%Z else 0%Z).
Proof.
  intros Hwf.
  destruct (render_dependency_matrix_spec self g Hwf)
    as (g' & m & Hrun & Hlen & Hnd & Hsq & _ & _ & _ & _ & Hcell & _).
  eexists g', _. split; [exact Hrun|]. simpl.
  set (names := reverse (get_all_node_names g)) in *.
  rewrite <- Hlen in *. intros k s d Hs Hd.
  assert (k < length names * length names) as Hk.
  { apply lookup_lt_Some in Hs.
    rewrite (length_join_rows (length names)), length_fmap in Hs; [done|].
    apply Forall_fmap, Forall_forall. intros ? _. apply length_replicate. }
  destruct (flat_position _ _ Hk) as (i & j & -> & Hi & Hj).
  destruct (lookup_name_columns names i j Hi Hj) as [Hrow Hcol].
  rewrite Hrow in Hs. rewrite Hcol in Hd.
  rewrite (lookup_join_square _ m i j Hsq Hi Hj).
  by rewrite (Hcell i j s d Hs Hd).
Qed.

Lemma matrix_cell_tells_edge_witness :
  well_formed example_graph
  ∧ ∃ g' plot,
      render_dependency_matrix default_renderer example_graph = Ok (g', plot)
      ∧ ∀ k s d,
          MatrixPlot.importing_name plot !! k = Some s →
          MatrixPlot.imported_name plot !! k = Some d →
          MatrixPlot.matrix plot !! k
          = Some (if decide ((s, d) ∈ edge_pairs example_graph)
                  then 1%Z else 0%Z).
Proof.
  assert (well_formed example_graph) as Hwf by decide_closed.
  split; [exact Hwf|].
  exact (matrix_cell_tells_edge default_renderer example_graph Hwf).
Defined.

Lemma square_join_ext n m1 m2 :
  square n m1 → square n m2 →
  (∀ i j, i < n → j < n → cell m1 i j = cell m2 i j) →
  mjoin m1 = mjoin m2.
Proof.
  intros Hsq1 Hsq2 Hcells.
  assert (length (mjoin m1) = n * n) as Hl1.
  { destruct Hsq1 as [Hl Hrows]. by rewrite (length_join_rows n), Hl. }
  assert (length (mjoin m2) = n * n) as Hl2.
  { destruct Hsq2 as [Hl Hrows]. by rewrite (length_join_rows n), Hl. }
  apply (list_eq_same_length _ _ (n * n)); [done..|].
  intros k x y Hk Hx Hy.
  destruct (flat_position _ _ Hk) as (i & j & -> & Hi & Hj).
  rewrite (lookup_join_square _ _ i j Hsq1 Hi Hj) in Hx.
  rewrite (lookup_join_square _ _ i j Hsq2 Hi Hj) in Hy.
  injection Hx as <-. injection Hy as <-. by apply Hcells.
Qed.

(** X3: the plot is a function of the names of the nodes, in their order,
    and of the set of pairs joined by an edge: two well-formed graphs that
    agree on these give the same plot, whatever their multiplicities, the
    order of their edges and the other fields of their nodes are. *)
Theorem matrix_depends_on_names_and_edges (self : GraphRenderer string)
    (g1 g2 : Graph) :
  well_formed g1 → well_formed g2 →
  get_all_node_names g1 = get_all_node_names g2 →
  (∀ p, p ∈ edge_pairs g1 ↔ p ∈ edge_pairs g2) →
  ∃ g1' g2' plot,
    render_dependency_matrix self g1 = Ok (g1', plot)
    ∧ render_dependency_matrix self g2 = Ok (g2', plot).
Proof.
  intros Hwf1 Hwf2 Hnames Hedges.
  destruct (render_dependency_matrix_spec self g1 Hwf1)
    as (g1' & m1 & Hrun1 & Hlen1 & _ & Hsq1 & _ & _ & _ & _ & Hcell1 & _).
  destruct (render_dependency_matrix_spec self g2 Hwf2)
    as (g2' & m2 & Hrun2 & Hlen2 & _ & Hsq2 & _ & _ & _ & _ & Hcell2 & _).
  assert (node_count g2 = node_count g1) as Hn.
  { rewrite <- Hlen1, <- Hlen2. by rewrite Hnames. }
  rewrite Hn, <- Hnames in *.
  assert (mjoin m1 = mjoin m2) as Hm.
  { apply (square_join_ext (node_count g1)); [done..|].
    intros i j Hi Hj. rewrite <- Hlen1 in Hi, Hj.
    destruct (lookup_lt_is_Some_2 _ i Hi) as [s Hs].
    destruct (lookup_lt_is_Some_2 _ j Hj) as [d Hd].
    rewrite (Hcell1 i j s d Hs Hd), (Hcell2 i j s d Hs Hd).
    destruct (decide ((s, d) ∈ edge_pairs g1)) as [H|H].
    - rewrite decide_True; [done|]. by apply Hedges.
    - rewrite decide_False; [done|]. by rewrite <- Hedges. }
  rewrite <- Hm in Hrun2. eauto.
Qed.

Lemma matrix_depends_on_names_and_edges_witness :
  well_formed example_graph
  ∧ well_formed (mkGraph
       [("A", Node.mk "A" "package" "a" None None None None (Some 7%Z));
        ("B", module_node "B"); ("C", module_node "C")]
       [("B", [("A", 5%Z)]); ("A", [("B", 1%Z)])])
  ∧ ∃ g1' g2' plot,
      render_dependency_matrix default_renderer example_graph = Ok (g1', plot)
      ∧ render_dependency_matrix default_renderer
          (mkGraph
             [("A", Node.mk "A" "package" "a" None None None None (Some 7%Z));
              ("B", module_node "B"); ("C", module_node "C")]
             [("B", [("A", 5%Z)]); ("A", [("B", 1%Z)])])
        = Ok (g2', plot).
Proof.
  assert (well_formed example_graph) as Hwf1 by decide_closed.
  assert (well_formed (mkGraph
       [("A", Node.mk "A" "package" "a" None None None None (Some 7%Z));
        ("B", module_node "B"); ("C", module_node "C")]
       [("B", [("A", 5%Z)]); ("A", [("B", 1%Z)])])) as Hwf2 by decide_closed.
  split; [exact Hwf1|]. split; [exact Hwf2|].
  apply (matrix_depends_on_names_and_edges default_renderer _ _ Hwf1 Hwf2).
  - reflexivity.
  - intros p. change (p ∈ [("A", "B"); ("B", "A")] ↔ p ∈ [("B", "A"); ("A", "B")]).
    rewrite !elem_of_cons, !elem_of_nil. tauto.
Defined.

(** X4: a graph without edges, whatever its nodes, gives a matrix of N * N
    zeros and N * N background colours; with no node at all every column is
    empty. *)
Theorem matrix_without_edges (self : GraphRenderer string) (g : Graph) :
  NoDup (get_all_node_names g) →
  edges g = [] →
  ∃ g' plot,
    render_dependency_matrix self g = Ok (g', plot)
    ∧ MatrixPlot.matrix plot = replicate (node_count g * node_count g) 0%Z
    ∧ MatrixPlot.color plot
      = replicate (node_count g * node_count g) "#ffffff".
Proof.
  intros Hnd He.
  assert (well_formed g) as Hwf.
  { unfold well_formed. rewrite He. split_and!; try done; constructor. }
  destruct (render_dependency_matrix_spec self g Hwf)
    as (g' & m & Hrun & Hlen & _ & Hsq & _ & _ & _ & _ & Hcell & _).
  assert (edge_pairs g = []) as Hpairs by (unfold edge_pairs; by rewrite He).
  assert (mjoin m = replicate (node_count g * node_count g) 0%Z) as Hm.
  { symmetry. apply replicate_as_Forall. split.
    - destruct Hsq as [Hl Hrows]. by rewrite (length_join_rows (node_count g)), Hl.
    - apply Forall_forall. intros c [k Hc]%list_elem_of_lookup.
      destruct (lookup_join_square_inv _ m k c Hsq Hc)
        as (i & j & _ & Hi & Hj & ->).
      rewrite <- Hlen in Hi, Hj.
      destruct (lookup_lt_is_Some_2 _ i Hi) as [s Hs].
      destruct (lookup_lt_is_Some_2 _ j Hj) as [d Hd].
      rewrite (Hcell i j s d Hs Hd), Hpairs.
      rewrite decide_False; [done|]. apply not_elem_of_nil. }
  eexists g', _. split; [exact Hrun|]. simpl. split; [exact Hm|].
  rewrite Hm, fmap_replicate. reflexivity.
Qed.

Lemma matrix_without_edges_witness :
  NoDup (get_all_node_names
           (mkGraph [("A", module_node "A"); ("B", module_node "B")] []))
  ∧ ∃ g' plot,
      render_dependency_matrix default_renderer
        (mkGraph [("A", module_node "A"); ("B", module_node "B")] [])
      = Ok (g', plot)
      ∧ MatrixPlot.matrix plot = [0; 0; 0; 0]%Z
      ∧ MatrixPlot.color plot = ["#ffffff"; "#ffffff"; "#ffffff"; "#ffffff"].
Proof.
  assert (NoDup (get_all_node_names
           (mkGraph [("A", module_node "A"); ("B", module_node "B")] [])))
    as Hnd by decide_closed.
  split; [exact Hnd|].
  exact (matrix_without_edges default_renderer _ Hnd eq_refl).
Defined.

(** ** What the call leaves in the graph *)

Lemma same_but_index_refl a : same_but_index a a.
Proof. by repeat split. Qed.

Lemma same_but_index_set_index a b i :
  same_but_index a b → same_but_index a (Node.set_index i b).
Proof. unfold same_but_index. by destruct b. Qed.

Lemma assign_indices_keeps_nodes g names g' :
  assign_indices g names = Ok g' →
  edges g' = edges g
  ∧ keys (nodes g') = keys (nodes g)
  ∧ ∀ name node', get_node g' name = Some node' →
      ∃ node, get_node g name = Some node ∧ same_but_index node node'.
Proof.
  unfold assign_indices.
  apply (for_each_invariant (λ s,
    edges s = edges g ∧ keys (nodes s) = keys (nodes g)
    ∧ ∀ name node', get_node s name = Some node' →
        ∃ node, get_node g name = Some node ∧ same_but_index node node')).
  - intros s [i name] s' (He & Hk & Hnodes). unfold set_node_index.
    destruct (get_node s name) as [n|] eqn:Hn; [|done].
    intros [= <-]; simpl. split; [done|]. split.
    { by rewrite keys_dict_alter. }
    intros name' node'. unfold get_node in *; simpl. rewrite dict_get_alter.
    destruct (decide (name = name')) as [<-|Hne].
    + rewrite Hn; simpl. intros [= <-].
      destruct (Hnodes name n Hn) as (node & Hnode & Hsame).
      exists node. split; [done|]. by apply same_but_index_set_index.
    + apply Hnodes.
  - split; [done|]. split; [done|]. intros name node' Hnode.
    exists node'. split; [done|]. apply same_but_index_refl.
Qed.

(** X5: the call mutates the graph only in the index of its nodes: the edges
    and the names are as they were, and every node has the name, the type,
    the label and the geometry it had. *)
Theorem matrix_call_only_sets_index (self : GraphRenderer string) (g : Graph) :
  well_formed g →
  ∃ g' plot,
    render_dependency_matrix self g = Ok (g', plot)
    ∧ edges g' = edges g
    ∧ get_all_node_names g' = get_all_node_names g
    ∧ ∀ name node', get_node g' name = Some node' →
        ∃ node, get_node g name = Some node ∧ same_but_index node node'.
Proof.
  intros Hwf.
  destruct (render_dependency_matrix_spec self g Hwf) as (g' & m & Hrun & _).
  eexists g', _. split; [exact Hrun|].
  rewrite render_dependency_matrix_unfold in Hrun.
  destruct (assign_indices g _) as [g1|e] eqn:Hassign; [|done].
  rewrite bind_Ok in Hrun.
  pose proof (matrix_data_graph _ _ _ _ _ _ Hrun) as ->.
  exact (assign_indices_keeps_nodes _ _ _ Hassign).
Qed.

Lemma matrix_call_only_sets_index_witness :
  well_formed example_graph
  ∧ ∃ g' plot,
      render_dependency_matrix default_renderer example_graph = Ok (g', plot)
      ∧ edges g' = edges example_graph
      ∧ get_all_node_names g' = ["A"; "B"; "C"]
      ∧ ∀ name node', get_node g' name = Some node' →
          ∃ node, get_node example_graph name = Some node
                  ∧ same_but_index node node'.
Proof.
  assert (well_formed example_graph) as Hwf by decide_closed.
  split; [exact Hwf|].
  exact (matrix_call_only_sets_index default_renderer example_graph Hwf).
Defined.

(** ** The colour loop *)

Lemma length_filter_all {A} (P : A → Prop) `{!∀ a, Decision (P a)}
    (l : list A) :
  length (filter P l) = length l ↔ Forall P l.
Proof.
  induction l as [|a l IH]; [by split|].
  rewrite filter_cons. pose proof (length_filter P l).
  case_decide as Ha; simpl.
  - rewrite Forall_cons. split; [intros [= H']; split; [done|by apply IH]|].
    intros [_ Hl]. f_equal. by apply IH.
  - split; [lia|]. intros [? _]%Forall_cons. done.
Qed.

(** X6: the loop of lines 185-191 appends one colour for each element that
    is 0, 1 or -1, in order, and nothing for any other element: the colour
    column is as long as the matrix exactly when no element is outside
    these three values. *)
Theorem color_loop_skips_other_counts (self : GraphRenderer string)
    (elements : list Z) :
  assign_colors self elements
  = assign_colors self (filter colored elements)
  ∧ length (assign_colors self elements) = length (filter colored elements)
  ∧ (length (assign_colors self elements) = length elements
     ↔ Forall colored elements).
Proof.
  assert (∀ colors,
    fold_left (append_color self) elements colors
    = fold_left (append_color self) (filter colored elements) colors
    ∧ length (fold_left (append_color self) elements colors)
      = length colors + length (filter colored elements)) as H.
  { induction elements as [|c l IH]; intros colors; simpl; [split; [done|lia]|].
    rewrite filter_cons.
    destruct (IH (append_color self colors c)) as [IH1 IH2].
    destruct (decide (colored c)) as [Hc|Hc]; simpl.
    - split; [done|]. rewrite IH2.
      destruct Hc as [-> | [-> | ->]]; unfold append_color; simpl;
        rewrite length_app; simpl; lia.
    - assert (append_color self colors c = colors) as Heq.
      { unfold append_color, colored in *.
        repeat case_decide; try done; destruct Hc; auto. }
      rewrite Heq in *. done. }
  destruct (H []) as [H1 H2]. unfold assign_colors.
  split; [exact H1|]. split; [exact H2|].
  rewrite H2. simpl. apply length_filter_all.
Qed.

(** ** The labels of the axes *)

Lemma zip_range_enumerate (l : list string) : ∀ start,
  zip (seqZ start (Z.of_nat (length l))) l = enumerate_from start l.
Proof.
  induction l as [|a l IH]; intros start; [done|].
  simpl length. rewrite seqZ_cons by lia.
  replace (Z.pred (Z.of_nat (S (length l)))) with (Z.of_nat (length l)) by lia.
  simpl. f_equal. by rewrite IH.
Qed.

Lemma lookup_labels_from (l : list string) : ∀ start (labels : gmap Z string) z,
  fold_left (λ labels '(tick, name), <[tick := name]> labels)
            (enumerate_from start l) labels !! z
  = if decide (start ≤ z < start + Z.of_nat (length l))%Z
    then l !! Z.to_nat (z - start)
    else labels !! z.
Proof.
  induction l as [|a l IH]; intros start labels z; simpl.
  { rewrite decide_False by lia. done. }
  rewrite IH. destruct (decide (z = start)) as [->|Hne].
  - rewrite decide_False by lia. rewrite decide_True by lia.
    rewrite lookup_insert_eq. by rewrite Z.sub_diag.
  - rewrite lookup_insert_ne by done.
    destruct (decide (start + 1 ≤ z < start + 1 + Z.of_nat (length l))%Z).
    + rewrite decide_True by lia.
      replace (Z.to_nat (z - start)) with (S (Z.to_nat (z - (start + 1))))
        by lia. done.
    + rewrite decide_False by lia. done.
Qed.

Lemma lookup_major_label_overrides (names : list string) (z : Z) :
  major_label_overrides names !! z
  = if decide (0 ≤ z < Z.of_nat (length names))%Z
    then names !! Z.to_nat z else None.
Proof.
  unfold major_label_overrides. rewrite zip_range_enumerate, lookup_labels_from.
  rewrite Z.sub_0_r, lookup_empty. done.
Qed.

(** X7: the tick labels of both axes name the nodes by their index: the
    label of tick [i] is the name of the node whose index the call set to
    [i], and the ticks that carry a label are those from 0 to N - 1. *)
Theorem matrix_labels_follow_index (self : GraphRenderer string) (g : Graph) :
  well_formed g →
  ∃ g' plot,
    render_dependency_matrix self g = Ok (g', plot)
    ∧ (∀ name node i,
         get_node g' name = Some node → Node.index node = Some i →
         major_label_overrides (MatrixPlot.x_range plot) !! i = Some name
         ∧ major_label_overrides (MatrixPlot.y_range plot) !! i = Some name)
    ∧ ∀ z, is_Some (major_label_overrides (MatrixPlot.x_range plot) !! z)
           ↔ (0 ≤ z < Z.of_nat (node_count g))%Z.
Proof.
  intros Hwf.
  destruct (render_dependency_matrix_spec self g Hwf)
    as (g' & m & Hrun & Hlen & Hnd & _ & _ & Hk & _ & Hidx & _).
  eexists g', _. split; [exact Hrun|]. simpl.
  set (names := reverse (get_all_node_names g)) in *. split.
  - intros name node i Hnode Hi.
    destruct (names_position names name) as (k & Hname & Hlt).
    { unfold names. rewrite elem_of_reverse, <- Hk.
      apply dict_get_is_Some. by exists node. }
    pose proof (Hidx k name Hname) as Hix.
    apply node_index_Some in Hix as (node' & Hnode' & Hi').
    assert (i = Z.of_nat k) as -> by (unfold get_node in *; congruence).
    rewrite lookup_major_label_overrides, decide_True by lia.
    rewrite Nat2Z.id. by split.
  - intros z. rewrite lookup_major_label_overrides, Hlen.
    case_decide as Hz.
    + split; [done|]. intros _. apply lookup_lt_is_Some_2. lia.
    + split; [by intros [? ?]|done].
Qed.

Lemma matrix_labels_follow_index_witness :
  well_formed example_graph
  ∧ ∃ g' plot,
      render_dependency_matrix default_renderer example_graph = Ok (g', plot)
      ∧ (∀ name node i,
           get_node g' name = Some node → Node.index node = Some i →
           major_label_overrides (MatrixPlot.x_range plot) !! i = Some name
           ∧ major_label_overrides (MatrixPlot.y_range plot) !! i = Some name)
      ∧ ∀ z, is_Some (major_label_overrides (MatrixPlot.x_range plot) !! z)
             ↔ (0 ≤ z < 3)%Z.
Proof.
  assert (well_formed example_graph) as Hwf by decide_closed.
  split; [exact Hwf|].
  exact (matrix_labels_follow_index default_renderer example_graph Hwf).
Defined.

(** ** The attributes of the dependency graph *)

Lemma color_nodes_names {Color}
    (gradient : Color → Color → Z → Z → result Color)
    (self : GraphRenderer Color) (g : Graph) (names : list string) :
  ∀ attrs attrs',
    for_each (color_node gradient self g) names attrs = Ok attrs' →
    ∀ n, node_name attrs' !! n
         = if decide (n ∈ names) then Some n else node_name attrs !! n.
Proof.
  induction names as [|a names IH]; intros attrs attrs'; cbn [for_each].
  { intros [= <-] n. rewrite decide_False; [done|]. apply not_elem_of_nil. }
  rewrite color_node_unfold.
  destruct (gradient_color gradient self g a) as [c|e]; [|done].
  rewrite !bind_Ok. intros Hrun n. rewrite (IH _ _ Hrun n). cbn [node_name].
  destruct (decide (n ∈ names)) as [Hn|Hn].
  - rewrite decide_True; [done|]. by right.
  - destruct (decide (n = a)) as [->|Hne].
    + rewrite lookup_insert_eq, decide_True; [done|]. left.
    + rewrite lookup_insert_ne by done. rewrite decide_False; [done|].
      by intros [?|?]%elem_of_cons.
Qed.

(** X8: when the colouring returns, the two attribute dictionaries have the
    names of the nodes as their keys, no other key, and the name attribute
    of a node is its own name. *)
Theorem node_attrs_cover_nodes {Color}
    (gradient : Color → Color → Z → Z → result Color)
    (self : GraphRenderer Color) (g : Graph) (attrs : NodeAttrs Color) :
  render_dependency_graph gradient self g = Ok attrs →
  ∀ n, (is_Some (node_color attrs !! n) ↔ n ∈ get_all_node_names g)
       ∧ (is_Some (node_name attrs !! n) ↔ n ∈ get_all_node_names g)
       ∧ (n ∈ get_all_node_names g → node_name attrs !! n = Some n).
Proof.
  intros Hrun n.
  destruct (color_nodes_spec gradient self g _ _ _ Hrun n) as [Hin Hout].
  pose proof (color_nodes_names gradient self g _ _ _ Hrun n) as Hname.
  cbn [node_color node_name] in Hout, Hname.
  rewrite lookup_empty in Hout. rewrite lookup_empty in Hname.
  destruct (decide (n ∈ get_all_node_names g)) as [Hn|Hn].
  - destruct (Hin Hn) as (c & _ & Hc). rewrite Hc, Hname.
    split_and!; [split; eauto | split; eauto | done].
  - rewrite (Hout Hn), Hname.
    split_and!; [split; [by intros [? ?]|done] .. | done].
Qed.

Lemma node_attrs_cover_nodes_witness :
  ∃ attrs,
    render_dependency_graph (linear_gradient Qfloor) default_rgb_renderer example_graph
    = Ok attrs
    ∧ ∀ n, (is_Some (node_color attrs !! n) ↔ n ∈ ["A"; "B"; "C"])
           ∧ (is_Some (node_name attrs !! n) ↔ n ∈ ["A"; "B"; "C"])
           ∧ (n ∈ ["A"; "B"; "C"] → node_name attrs !! n = Some n).
Proof.
  destruct (render_dependency_graph_returns (linear_gradient Qfloor)
              default_rgb_renderer example_graph) as [attrs Hrun].
  { decide_closed. }
  { intros start finish i o Hne. eexists. by apply linear_gradient_returns. }
  exists attrs. split; [exact Hrun|].
  exact (node_attrs_cover_nodes (linear_gradient Qfloor) default_rgb_renderer
           example_graph attrs Hrun).
Defined.

(** X9: the colour of a node is a function of its two degrees: when the
    colouring returns, two nodes with the same in-degree and the same
    out-degree carry the same colour. *)
Theorem equal_degrees_equal_color {Color}
    (gradient : Color → Color → Z → Z → result Color)
    (self : GraphRenderer Color) (g : Graph) (attrs : NodeAttrs Color)
    (n1 n2 : string) :
  render_dependency_graph gradient self g = Ok attrs →
  n1 ∈ get_all_node_names g → n2 ∈ get_all_node_names g →
  in_degree g n1 = in_degree g n2 →
  out_degree g n1 = out_degree g n2 →
  node_color attrs !! n1 = node_color attrs !! n2
  ∧ is_Some (node_color attrs !! n1).
Proof.
  intros Hrun H1 H2 Hin Hout.
  destruct (color_nodes_spec gradient self g _ _ _ Hrun n1) as [Hs1 _].
  destruct (color_nodes_spec gradient self g _ _ _ Hrun n2) as [Hs2 _].
  destruct (Hs1 H1) as (c1 & Hc1 & Hl1). destruct (Hs2 H2) as (c2 & Hc2 & Hl2).
  unfold gradient_color in Hc1, Hc2. rewrite Hin, Hout in Hc1.
  rewrite Hl1, Hl2. split; [congruence | eauto].
Qed.

Lemma equal_degrees_equal_color_witness :
  ∃ attrs,
    render_dependency_graph (linear_gradient Qfloor) default_rgb_renderer
      (mkGraph [("A", module_node "A"); ("B", module_node "B");
                ("C", module_node "C")]
               [("A", [("C", 1%Z)]); ("B", [("C", 1%Z)])]) = Ok attrs
    ∧ node_color attrs !! "A" = node_color attrs !! "B"
    ∧ is_Some (node_color attrs !! "A").
Proof.
  destruct (render_dependency_graph_returns (linear_gradient Qfloor)
              default_rgb_renderer
              (mkGraph [("A", module_node "A"); ("B", module_node "B");
                        ("C", module_node "C")]
                       [("A", [("C", 1%Z)]); ("B", [("C", 1%Z)])]))
    as [attrs Hrun].
  { decide_closed. }
  { intros start finish i o Hne. eexists. by apply linear_gradient_returns. }
  exists attrs. split; [exact Hrun|].
  apply (equal_degrees_equal_color (linear_gradient Qfloor) default_rgb_renderer
           _ attrs "A" "B" Hrun); [decide_closed | decide_closed | done | done].
Defined.

(** X10: the colouring returns exactly when the colour of lines 78-81 is
    computed without an exception for every node of the graph. *)
Theorem coloring_returns_iff {Color}
    (gradient : Color → Color → Z → Z → result Color)
    (self : GraphRenderer Color) (g : Graph) :
  (∃ attrs, render_dependency_graph gradient self g = Ok attrs)
  ↔ ∀ node, node ∈ get_all_node_names g →
      ∃ c, gradient_color gradient self g node = Ok c.
Proof.
  split.
  - intros [attrs Hrun] node Hnode.
    destruct (color_nodes_spec gradient self g _ _ _ Hrun node) as [Hin _].
    destruct (Hin Hnode) as (c & Hc & _). eauto.
  - intros Hok. by apply color_nodes_returns.
Qed.

(** X11: the first node, in the order of the names, whose colour raises
    ends the colouring with that exception: no attribute is returned. *)
Theorem coloring_raises_first {Color}
    (gradient : Color → Color → Z → Z → result Color)
    (self : GraphRenderer Color) (g : Graph)
    (before after : list string) (node : string) (e : exception) :
  get_all_node_names g = before ++ node :: after →
  (∀ n, n ∈ before → ∃ c, gradient_color gradient self g n = Ok c) →
  gradient_color gradient self g node = Raise e →
  render_dependency_graph gradient self g = Raise e.
Proof.
  intros Hnames Hbefore Hnode. unfold render_dependency_graph.
  rewrite Hnames, for_each_app.
  destruct (color_nodes_returns gradient self g before (mkNodeAttrs ∅ ∅) Hbefore)
    as [attrs Hrun].
  rewrite Hrun, bind_Ok. simpl. by rewrite color_node_unfold, Hnode.
Qed.

Lemma coloring_raises_first_witness :
  render_dependency_graph (linear_gradient Qfloor) default_rgb_renderer
    (mkGraph [("C", module_node "C"); ("A", module_node "A");
              ("B", module_node "B")]
             [("A", [("B", 1%Z)]); ("B", [("A", (-1)%Z)])])
  = Raise ZeroDivisionError.
Proof.
  apply (coloring_raises_first (linear_gradient Qfloor) default_rgb_renderer
           _ ["C"] ["B"] "A" ZeroDivisionError).
  - reflexivity.
  - intros n ->%list_elem_of_singleton. by eexists.
  - reflexivity.
Defined.

(** ** The rows of the structure graph *)

(** X12: the nine columns of the node data are aligned: each has one entry
    for each node, in the order of the nodes, and row [k] holds the
    geometry, the type and the label of the [k]-th node; the column called
    name holds the label of the node as well, and the font size is the same
    in every row. *)
Theorem structure_rows_describe_nodes
    (layout : Graph → Qc → Qc → result Graph) (self : GraphRenderer string)
    (g : Graph) (base_width base_height base_font_size : Qc) (g' : Graph) :
  layout g (base_width * base_font_size / Z2Qc 60)%Qc
           (base_height * base_font_size * Z2Qc 4 / Z2Qc 10)%Qc = Ok g' →
  ∃ plot,
    render_structure_graph layout self g base_width base_height base_font_size
    = Ok plot
    ∧ length (StructurePlot.center_x plot) = node_count g'
    ∧ length (StructurePlot.center_y plot) = node_count g'
    ∧ length (StructurePlot.width plot) = node_count g'
    ∧ length (StructurePlot.height plot) = node_count g'
    ∧ length (StructurePlot.name plot) = node_count g'
    ∧ length (StructurePlot.type plot) = node_count g'
    ∧ length (StructurePlot.label plot) = node_count g'
    ∧ length (StructurePlot.font_size plot) = node_count g'
    ∧ length (StructurePlot.color plot) = node_count g'
    ∧ ∀ k node, nodes_iter g' !! k = Some node →
        StructurePlot.center_x plot !! k = Some (Node.x node)
        ∧ StructurePlot.center_y plot !! k = Some (Node.y node)
        ∧ StructurePlot.width plot !! k = Some (Node.width node)
        ∧ StructurePlot.height plot !! k = Some (Node.height node)
        ∧ StructurePlot.name plot !! k = Some (Node.label node)
        ∧ StructurePlot.type plot !! k = Some (Node.type node)
        ∧ StructurePlot.label plot !! k = Some (Node.label node)
        ∧ StructurePlot.font_size plot !! k = Some base_font_size.
Proof.
  intros Hlayout. eexists. split.
  { by apply render_structure_graph_spec. }
  assert (length (nodes_iter g') = node_count g') as Hn.
  { unfold nodes_iter, values, node_count. apply length_fmap. }
  cbn [StructurePlot.center_x StructurePlot.center_y StructurePlot.width
       StructurePlot.height StructurePlot.name StructurePlot.type
       StructurePlot.label StructurePlot.font_size StructurePlot.color].
  rewrite !length_fmap, Hn. split_and!; try reflexivity.
  intros k node Hk. rewrite !list_lookup_fmap, Hk. by split_and!.
Qed.

Lemma structure_rows_describe_nodes_witness :
  no_layout example_tree
    (Z2Qc 3 / Z2Qc 10 * Z2Qc 30 / Z2Qc 60)%Qc
    (Z2Qc 2 / Z2Qc 10 * Z2Qc 30 * Z2Qc 4 / Z2Qc 10)%Qc = Ok example_tree
  ∧ ∃ plot,
      render_structure_graph no_layout default_renderer example_tree
        (Z2Qc 3 / Z2Qc 10)%Qc (Z2Qc 2 / Z2Qc 10)%Qc (Z2Qc 30) = Ok plot
      ∧ length (StructurePlot.name plot) = 4
      ∧ ∀ k node, nodes_iter example_tree !! k = Some node →
          StructurePlot.name plot !! k = Some (Node.label node)
          ∧ StructurePlot.type plot !! k = Some (Node.type node)
          ∧ StructurePlot.font_size plot !! k = Some (Z2Qc 30).
Proof.
  split; [reflexivity|].
  destruct (structure_rows_describe_nodes no_layout default_renderer
              example_tree (Z2Qc 3 / Z2Qc 10)%Qc (Z2Qc 2 / Z2Qc 10)%Qc
              (Z2Qc 30) example_tree eq_refl)
    as (plot & Hrun & _ & _ & _ & _ & Hlen & _ & _ & _ & _ & Hrows).
  exists plot. split_and!; [exact Hrun | exact Hlen |].
  intros k node Hk.
  destruct (Hrows k node Hk) as (_ & _ & _ & _ & Hname & Htype & _ & Hfont).
  by split_and!.
Defined.

Lemma lookup_omap_all {A B} (f : A → option B) (l : list A) (k : nat) :
  (∀ a, a ∈ l → is_Some (f a)) → omap f l !! k = l !! k ≫= f.
Proof.
  revert k. induction l as [|a l IH]; intros k Hall; [done|].
  cbn [omap list_omap]. destruct (Hall a) as [b Hb]; [left|]. rewrite Hb.
  destruct k as [|k]; simpl; [done|]. apply IH.
  intros a' Ha'. apply Hall. by right.
Qed.

Lemma length_omap_all {A B} (f : A → option B) (l : list A) :
  (∀ a, a ∈ l → is_Some (f a)) → length (omap f l) = length l.
Proof.
  induction l as [|a l IH]; intros Hall; [done|].
  cbn [omap list_omap]. destruct (Hall a) as [b Hb]; [left|]. rewrite Hb.
  simpl. f_equal. apply IH. intros a' Ha'. apply Hall. by right.
Qed.

(** X13: when, after the layout, both ends of every edge are nodes, no edge
    is left out: the edge columns have one row for each edge, in the order
    of the edges, and row [k] joins the coordinates of the begin node to
    those of the end node of the [k]-th edge. *)
Theorem structure_draws_every_edge
    (layout : Graph → Qc → Qc → result Graph) (self : GraphRenderer string)
    (g : Graph) (base_width base_height base_font_size : Qc) (g' : Graph) :
  layout g (base_width * base_font_size / Z2Qc 60)%Qc
           (base_height * base_font_size * Z2Qc 4 / Z2Qc 10)%Qc = Ok g' →
  ends_known g' →
  ∃ plot,
    render_structure_graph layout self g base_width base_height base_font_size
    = Ok plot
    ∧ length (StructurePlot.xs plot) = length (edge_pairs g')
    ∧ length (StructurePlot.ys plot) = length (edge_pairs g')
    ∧ ∀ k s d, edge_pairs g' !! k = Some (s, d) →
        ∃ begin_node end_node,
          get_node g' s = Some begin_node
          ∧ get_node g' d = Some end_node
          ∧ StructurePlot.xs plot !! k
            = Some (Node.x begin_node, Node.x end_node)
          ∧ StructurePlot.ys plot !! k
            = Some (Node.y begin_node, Node.y end_node).
Proof.
  intros Hlayout Hknown. eexists. split.
  { by apply render_structure_graph_spec. }
  assert (∀ p, p ∈ edge_pairs g' → is_Some (edge_nodes g' p)) as Hall.
  { intros [s d] Hsd. apply edge_nodes_is_Some.
    destruct (Hknown s d Hsd) as [Hs Hd]. unfold get_node.
    split; by apply dict_get_is_Some. }
  cbn [StructurePlot.xs StructurePlot.ys].
  rewrite !length_fmap, (length_omap_all _ _ Hall). split_and!; try done.
  intros k s d Hk. rewrite !list_lookup_fmap, (lookup_omap_all _ _ _ Hall), Hk.
  cbn [mbind option_bind].
  assert ((s, d) ∈ edge_pairs g') as Hsd by (by eapply list_elem_of_lookup_2).
  destruct (Hknown s d Hsd) as [Hs Hd].
  apply dict_get_is_Some in Hs as [b Hb]. apply dict_get_is_Some in Hd as [e He].
  exists b, e. unfold edge_nodes, get_node; simpl. rewrite Hb, He. done.
Qed.

Lemma structure_draws_every_edge_witness :
  no_layout (mkGraph (nodes example_tree)
                     [("/", [("/src", 1%Z); ("/README", 1%Z)])])
    (Z2Qc 3 / Z2Qc 10 * Z2Qc 30 / Z2Qc 60)%Qc
    (Z2Qc 2 / Z2Qc 10 * Z2Qc 30 * Z2Qc 4 / Z2Qc 10)%Qc
  = Ok (mkGraph (nodes example_tree) [("/", [("/src", 1%Z); ("/README", 1%Z)])])
  ∧ ∃ plot,
      render_structure_graph no_layout default_renderer
        (mkGraph (nodes example_tree)
                 [("/", [("/src", 1%Z); ("/README", 1%Z)])])
        (Z2Qc 3 / Z2Qc 10)%Qc (Z2Qc 2 / Z2Qc 10)%Qc (Z2Qc 30) = Ok plot
      ∧ length (StructurePlot.xs plot) = 2
      ∧ length (StructurePlot.ys plot) = 2.
Proof.
  split; [reflexivity|].
  destruct (structure_draws_every_edge no_layout default_renderer
              (mkGraph (nodes example_tree)
                       [("/", [("/src", 1%Z); ("/README", 1%Z)])])
              (Z2Qc 3 / Z2Qc 10)%Qc (Z2Qc 2 / Z2Qc 10)%Qc (Z2Qc 30) _ eq_refl)
    as (plot & Hrun & Hxs & Hys & _).
  { apply ends_known_Forall. decide_closed. }
  exists plot. split_and!; [exact Hrun | exact Hxs | exact Hys].
Defined.
